(** * The dynamic-loading demonstration: [sharedlib.c] and [tutorial14_main.c]

    A shallow embedding of the shared library (the Module) and of the
    program that loads it (the Host), followed by the properties of the
    two that the specification states.  The functions of the mystery
    program [tutorial13.c] are embedded over the same store, with their
    properties at the end.

    Conventions of the embedding.
    - A C [int] is a [Z] kept in the signed 32-bit range; every [int]
      operation of the source is followed by [CInt.wrap] (two's
      complement, as gcc on x86-64 behaves), and so is the conversion
      of a [size_t] to [int].  Overflow of a signed [int], which ISO C
      leaves undefined, is taken as this wrap-around, as the
      specification does.
    - A [size_t] and a pointer are natural numbers: the source performs
      no [size_t] arithmetic that can wrap ([len - 1 - i] and [i++] are
      only evaluated with [i < len]).  Pointers are addresses into one
      flat store of [char] objects; address [0] is [NULL].
    - A cell of the store holds the value of one [char] object.  The
      comparisons with ['a'] and ['z'] and the subtraction in
      [lib_process_data] come out the same whether [char] is signed or
      not, so no range is imposed on the cells.
    - Every function takes the process state and returns the new one.
      An access outside the store (or through [NULL]) has no defined
      behaviour in C and makes the embedding return [None].
    - The state also keeps two logs that the source does not have: the
      addresses stored to and the events visible from outside. *)

From Stdlib Require Import ZArith Lia Ascii String.
From stdpp Require Import base option list strings pretty.

Open Scope Z_scope.

(** ** C integers *)

Module CInt.

Definition min_int : Z := -2147483648.
Definition max_int : Z := 2147483647.

(** Reduction of a mathematical integer to the value an [int] holds. *)
Definition wrap (z : Z) : Z := (z + 2147483648) mod 4294967296 - 2147483648.

Definition add (a b : Z) : Z := wrap (a + b).
Definition mul (a b : Z) : Z := wrap (a * b).

Definition in_range (z : Z) : Prop := min_int <= z <= max_int.

End CInt.

(** ** Characters and text *)

(** The code of a character constant such as ['a']. *)
Definition chr (a : ascii) : Z := Z.of_N (N_of_ascii a).

(** The [char] values of a string literal, without the terminator. *)
Fixpoint chars (s : string) : list Z :=
  match s with
  | EmptyString => []
  | String a s' => chr a :: chars s'
  end.

(** The text a sequence of [char] values prints as. *)
Fixpoint text (cs : list Z) : string :=
  match cs with
  | [] => EmptyString
  | c :: cs' => String (ascii_of_N (Z.to_N (c mod 256))) (text cs')
  end.

(** The line feed character, written [\n] in the source. *)
Definition LF : string := String "010" EmptyString.

(** ** Process state *)

(** What the process does that can be seen from outside, in order. *)
Inductive event : Type :=
  | Stdout (s : string)      (* printf *)
  | Stderr (s : string)      (* fprintf(stderr, ...) *)
  | Dlopen (path : string)
  | Dlsym (name : string)
  | Dlclose
  | Invoke (name : string)   (* the Host calls through a resolved handle *)
  | Callback (arg : Z).      (* the Module calls the Host's function pointer *)

Record state : Type := mkState {
  mem : list Z;              (* the store of char objects *)
  lib_global_counter : Z;    (* the Module's exported int *)
  stores : list nat;         (* addresses written so far, oldest first *)
  trace : list event         (* events so far, oldest first *)
}.

Definition set_mem (m : list Z) (st : state) : state :=
  mkState m (lib_global_counter st) (stores st) (trace st).
Definition set_counter (c : Z) (st : state) : state :=
  mkState (mem st) c (stores st) (trace st).
Definition log_store (a : nat) (st : state) : state :=
  mkState (mem st) (lib_global_counter st) (stores st ++ [a]) (trace st).
Definition emit (e : event) (st : state) : state :=
  mkState (mem st) (lib_global_counter st) (stores st) (trace st ++ [e]).

(** [p[0]] read through a [char] pointer. *)
Definition load (a : nat) (st : state) : option Z :=
  if decide (a = 0%nat) then None else mem st !! a.

(** [p[0] = c] through a [char] pointer. *)
Definition store (a : nat) (c : Z) (st : state) : option state :=
  if decide (a ≠ 0%nat ∧ (a < length (mem st))%nat)
  then Some (log_store a (set_mem (<[a:=c]> (mem st)) st))
  else None.

(** The scan of [strlen] over the cells from an address on. *)
Fixpoint strlen_from (cs : list Z) : option nat :=
  match cs with
  | [] => None
  | c :: cs' => if decide (c = 0) then Some 0%nat else S <$> strlen_from cs'
  end.

Definition strlen (p : nat) (st : state) : option nat :=
  if decide (p = 0%nat) then None else strlen_from (drop p (mem st)).

(** [for (size_t i = start; i < start + n; i++) body], with [n] rounds. *)
Fixpoint for_range (start n : nat) (body : nat → state → option state)
    (st : state) : option state :=
  match n with
  | O => Some st
  | S n' => st' ← body start st; for_range (S start) n' body st'
  end.

(** ** The Module: [sharedlib.c] *)

Module SharedLib.

Definition LIB_VERSION : string := "1.0.0".

(** The type [callback_func], a pointer to a function from [int] to
    [int]: code of the Host, run on the process state. *)
Definition callback_func : Type := Z → state → Z * state.

Definition internal_calculate (a b : Z) : Z :=
  CInt.add (CInt.mul a b) (CInt.add a b).

Definition lib_initialize (st : state) : Z * state :=
  (0, emit (Stdout ("[Library] Initializing version " +:+ LIB_VERSION +:+ LF)) st).

(** One round of the loop of [lib_process_data]. *)
Definition process_body (input output len : nat) (i : nat) (st : state)
    : option state :=
  c ← load (input + (len - 1 - i)) st;
  let c := if bool_decide (c >= chr "a" ∧ c <= chr "z")
           then c - chr "a" + chr "A" else c in
  store (output + i) c st.

Definition lib_process_data (input output output_size : nat) (st : state)
    : option (Z * state) :=
  if bool_decide (input = 0%nat ∨ output = 0%nat ∨ output_size = 0%nat)
  then Some (-1, st)
  else
    len ← strlen input st;
    if bool_decide (output_size ≤ len)%nat   (* len >= output_size *)
    then Some (-2, st)
    else
      st ← for_range 0 len (process_body input output len) st;
      st ← store (output + len) 0 st;
      Some (CInt.wrap (Z.of_nat len), st).

Definition lib_execute_callback (cb : option callback_func) (value : Z)
    (st : state) : Z * state :=
  match cb with
  | None => (-1, st)
  | Some f =>
      let internal_result := internal_calculate value 10 in
      f internal_result (emit (Callback internal_result) st)
  end.

(** [printf("[Library] Loaded at %p\n", lib_constructor)]; the text of
    the address is the loader's choice. *)
Definition lib_constructor (address : string) (st : state) : state :=
  emit (Stdout ("[Library] Loaded at " +:+ address +:+ LF)) st.

Definition lib_destructor (st : state) : state :=
  emit (Stdout ("[Library] Unloading" +:+ LF)) st.

(** The initialiser of [int lib_global_counter = 0;]. *)
Definition lib_global_counter_init : Z := 0.

Definition lib_increment_counter (st : state) : state :=
  set_counter (CInt.add (lib_global_counter st) 1) st.

(** What loading the module does to the process: its data is
    initialised, then its constructor runs. *)
Definition load_module (address : string) (st : state) : state :=
  lib_constructor address (set_counter lib_global_counter_init st).

(** What unloading does: the destructor runs. *)
Definition unload_module (st : state) : state := lib_destructor st.

(** A callback that only computes: it returns [f] of its argument and
    leaves the process state alone. *)
Definition pure_callback (f : Z → Z) : callback_func := λ value st, (f value, st).

(** The callback that multiplies its argument by 2. *)
Definition doubling : callback_func := pure_callback (λ value, CInt.mul value 2).

End SharedLib.

(** ** The Host: [tutorial14_main.c] *)

Module Host.
Import SharedLib.

(** What the Host finds in its environment. *)
Record world : Type := mkWorld {
  dl_error : string → option string;
    (* per path: [None] when the module loads, else the text of dlerror() *)
  exported : string → bool;      (* the export table of that module *)
  load_address : string;         (* how %p prints lib_constructor *)
  stack_garbage : list Z         (* what output[256] holds before use *)
}.

Definition dlerror (w : world) (path : string) : string :=
  default "" (dl_error w path).

(** [dlopen]: the handle is non-null exactly when no error is reported;
    loading initialises the module's data and runs its constructor. *)
Definition dlopen (w : world) (path : string) (st : state) : bool * state :=
  let st := emit (Dlopen path) st in
  match dl_error w path with
  | Some _ => (false, st)
  | None => (true, load_module (load_address w) st)
  end.

(** [dlsym]: the result is non-null exactly when the name is exported. *)
Definition dlsym (w : world) (name : string) (st : state) : bool * state :=
  (exported w name, emit (Dlsym name) st).

(** [dlclose]: unloading runs the module's destructor. *)
Definition dlclose (st : state) : state :=
  unload_module (emit Dlclose st).

Definition printf (s : string) (st : state) : state := emit (Stdout s) st.
Definition fprintf_stderr (s : string) (st : state) : state := emit (Stderr s) st.

(** The characters [%s] prints: those before the terminator. *)
Definition read_string (p : nat) (st : state) : option (list Z) :=
  n ← strlen p st; Some (take n (drop p (mem st))).

Definition my_callback : callback_func := λ value st,
  (CInt.mul value 2,
   printf ("[Main] Callback received value: " +:+ pretty value +:+ LF) st).

(** The objects of [main]: the string literal and the array [output]. *)
Definition input_text : string := "Hello Dynamic Library".
Definition input : nat := 1.
Definition output : nat := input + length (chars input_text) + 1.
Definition sizeof_output : nat := 256.

Definition initial_state (w : world) : state :=
  mkState (0 :: chars input_text ++ 0 :: resize sizeof_output 0 (stack_garbage w))
          0 [] [].

(** The part of [main] after the check of the symbols, up to the
    unloading. *)
Definition use_library (st : state) : option state :=
  let st := printf (LF +:+ "=== Testing Library Functions ===" +:+ LF) st in
  let '(ret, st) := lib_initialize (emit (Invoke "lib_initialize") st) in
  let st := printf ("[Main] lib_initialize returned: " +:+ pretty ret +:+ LF) st in
  '(ret, st) ← lib_process_data input output sizeof_output
                 (emit (Invoke "lib_process_data") st);
  let st := printf ("[Main] lib_process_data returned: " +:+ pretty ret +:+ LF) st in
  processed ← read_string output st;
  let st := printf ("[Main] Processed string: '" +:+ text processed +:+ "'" +:+ LF) st in
  let '(ret, st) := lib_execute_callback (Some my_callback) 7
                      (emit (Invoke "lib_execute_callback") st) in
  let st := printf ("[Main] lib_execute_callback returned: " +:+ pretty ret +:+ LF) st in
  let st := printf ("[Main] Initial counter value: "
                    +:+ pretty (lib_global_counter st) +:+ LF) st in
  let st := lib_increment_counter (emit (Invoke "lib_increment_counter") st) in
  let st := printf ("[Main] Counter after increment: "
                    +:+ pretty (lib_global_counter st) +:+ LF) st in
  Some st.

(** [main]: the exit code and the final state. *)
Definition main (w : world) : option (Z * state) :=
  let st := initial_state w in
  let '(handle, st) := dlopen w "./libshared14.so" st in
  if negb handle then
    let st := fprintf_stderr ("Failed to load library: "
                              +:+ dlerror w "./libshared14.so" +:+ LF) st in
    Some (1, st)
  else
    let st := printf ("[Main] Library loaded successfully" +:+ LF) st in
    let '(lib_init, st) := dlsym w "lib_initialize" st in
    let '(lib_process, st) := dlsym w "lib_process_data" st in
    let '(lib_callback, st) := dlsym w "lib_execute_callback" st in
    let '(lib_increment, st) := dlsym w "lib_increment_counter" st in
    let '(counter_ptr, st) := dlsym w "lib_global_counter" st in
    if negb lib_init || negb lib_process || negb lib_callback
       || negb lib_increment || negb counter_ptr
    then
      let st := fprintf_stderr ("Failed to find symbols" +:+ LF) st in
      let st := dlclose st in
      Some (1, st)
    else
      st ← use_library st;
      let st := printf (LF +:+ "[Main] Unloading library" +:+ LF) st in
      let st := dlclose st in
      Some (0, st).

End Host.

(** ** The mystery program: [tutorial13.c] *)

Module Mystery.

Definition a1b2c3 (x : Z) : Z :=
  let result := CInt.mul x x in
  let result := if bool_decide (result > 100) then Z.rem result 100 else result in
  CInt.add result 42.

(** [malloc(size)], taken to succeed (the source does not test its
    result): the block is the cells just past the store, and holds
    whatever the allocator left there, [fresh]. *)
Definition malloc (size : nat) (fresh : list Z) (st : state) : nat * state :=
  (length (mem st), set_mem (mem st ++ resize size 0 fresh) st).

(** One round of the loop of [d4e5f6]; [input[i]] is read once, no
    store coming between the reads of the source. *)
Definition d4e5f6_body (input output : nat) (i : nat) (st : state)
    : option state :=
  c ← load (input + i) st;
  if bool_decide (c >= chr "a" ∧ c <= chr "z")
  then store (output + i) (Z.rem (c - chr "a" + 13) 26 + chr "a") st
  else if bool_decide (c >= chr "A" ∧ c <= chr "Z")
  then store (output + i) (Z.rem (c - chr "A" + 13) 26 + chr "A") st
  else store (output + i) c st.

(** [d4e5f6]: the pointer returned and the new state.  The length is
    kept in an [int]: when it comes out negative, [output[len]] lies
    outside the block, and at [INT_MAX] the sum [len + 1] overflows;
    neither has a defined behaviour. *)
Definition d4e5f6 (fresh : list Z) (input : nat) (st : state)
    : option (nat * state) :=
  n ← strlen input st;
  let len := CInt.wrap (Z.of_nat n) in
  if bool_decide (len < 0 ∨ len = CInt.max_int) then None
  else
    let '(output, st) := malloc (Z.to_nat (len + 1)) fresh st in
    st ← for_range 0 (Z.to_nat len) (d4e5f6_body input output) st;
    st ← store (output + Z.to_nat len) 0 st;
    Some (output, st).

Record MysteryStruct : Type := mkMysteryStruct {
  field1 : Z;
  field2 : Z;
  field3 : list Z     (* char field3[16] *)
}.

(** The constant [0xDEADBEEF], of type [unsigned int]. *)
Definition DEADBEEF : Z := 3735928559.

(** [g7h8i9] on the structure [ms] points to.  The exclusive or is
    computed on [unsigned int] and converted back to [int]; [strcpy]
    stores the nine letters and the terminator. *)
Definition g7h8i9 (ms : MysteryStruct) : MysteryStruct :=
  let f1 := a1b2c3 (field1 ms) in
  let f2 := CInt.wrap (Z.lxor (f1 mod 4294967296) DEADBEEF) in
  mkMysteryStruct f1 f2 (list_inserts 0 (chars "PROCESSED" ++ [0]) (field3 ms)).

End Mystery.

(** The letter 13 places further in its alphabet, round the end; other
    characters as they are. *)
Definition rot13 (c : Z) : Z :=
  if decide (chr "a" <= c <= chr "z") then (c - chr "a" + 13) mod 26 + chr "a"
  else if decide (chr "A" <= c <= chr "Z") then (c - chr "A" + 13) mod 26 + chr "A"
  else c.

(** ** Vocabulary of the statements *)

Definition printable (c : Z) : Prop := 32 <= c <= 126.
Definition lowercase (c : Z) : Prop := chr "a" <= c <= chr "z".

Global Instance printable_dec c : Decision (printable c).
Proof. unfold printable. apply _. Defined.
Global Instance lowercase_dec c : Decision (lowercase c).
Proof. unfold lowercase. apply _. Defined.

(** The cells from [p] on hold the characters [s], none of them zero,
    and then the terminator: [s] is the C string at [p]. *)
Definition string_at (p : nat) (s : list Z) (st : state) : Prop :=
  p ≠ 0%nat ∧ Forall (λ c, c ≠ 0) s
  ∧ take (S (length s)) (drop p (mem st)) = s ++ [0].

(** [n] cells from [p] on lie in the store: a buffer of capacity [n]. *)
Definition buffer_at (p n : nat) (st : state) : Prop :=
  p ≠ 0%nat ∧ (p + n ≤ length (mem st))%nat.

(** The cells [0..len] from [input] and the cells [0..len] from [output]
    have no address in common. *)
Definition separate (input output len : nat) : Prop :=
  (output + len < input)%nat ∨ (input + len < output)%nat.

Global Instance string_at_dec p s st : Decision (string_at p s st).
Proof. unfold string_at. apply _. Defined.
Global Instance buffer_at_dec p n st : Decision (buffer_at p n st).
Proof. unfold buffer_at. apply _. Defined.
Global Instance separate_dec i o n : Decision (separate i o n).
Proof. unfold separate. apply _. Defined.

(** The transformation in the words of the specification: the input
    reversed, with ASCII lowercase letters mapped to uppercase. *)
Definition uppercase (c : Z) : Z := if decide (lowercase c) then c - 32 else c.
Definition reverse_uppercase (s : list Z) : list Z := uppercase <$> reverse s.

(** The state a call of [lib_process_data] without overlap ends in: the
    transformed string and its terminator stored from [output] on. *)
Definition processed (output : nat) (s : list Z) (st : state) : state :=
  mkState (list_inserts output (reverse_uppercase s ++ [0]) (mem st))
          (lib_global_counter st)
          (stores st ++ seq output (S (length s)))
          (trace st).

(** A store for long inputs: from address [1] a string of [n] letters
    [A] and its terminator, then, from address [n + 2], [n + 1] cells. *)
Definition long_store (n : nat) : state :=
  mkState (0 :: replicate n (chr "A") ++ 0 :: replicate (S n) 0) 0 [] [].

(** What a state keeps when only cells in [lo, hi) are stored to:
    everything but the cells named and the log of stores. *)
Definition same_but (lo hi : nat) (st st' : state) : Prop :=
  length (mem st') = length (mem st)
  ∧ lib_global_counter st' = lib_global_counter st
  ∧ trace st' = trace st
  ∧ ∀ a, (a < lo ∨ hi ≤ a)%nat → mem st' !! a = mem st !! a.

(** The addresses a call stored to: what [stores] gained. *)
Definition stored_by (st st' : state) : list nat :=
  drop (length (stores st)) (stores st').

(** ** Vocabulary of the statements about the Host *)

(** The exports the Host looks up, in the order of its [dlsym] calls. *)
Definition required : list string :=
  ["lib_initialize"; "lib_process_data"; "lib_execute_callback";
   "lib_increment_counter"; "lib_global_counter"].

(** The path the Host loads the module from. *)
Definition module_path : string := "./libshared14.so".

(** The names resolved, the exports invoked, the values passed to the
    callback and the texts written to each stream, in order. *)
Definition resolutions (tr : list event) : list string :=
  omap (λ e, match e with Dlsym name => Some name | _ => None end) tr.
Definition invocations (tr : list event) : list string :=
  omap (λ e, match e with Invoke name => Some name | _ => None end) tr.
Definition callbacks (tr : list event) : list Z :=
  omap (λ e, match e with Callback v => Some v | _ => None end) tr.
Definition diagnostics (tr : list event) : list string :=
  omap (λ e, match e with Stderr s => Some s | _ => None end) tr.
Definition printed (tr : list event) : list string :=
  omap (λ e, match e with Stdout s => Some s | _ => None end) tr.

(** How many times the module is loaded and released. *)
Definition loads (tr : list event) : nat :=
  length (omap (λ e, match e with Dlopen _ => Some () | _ => None end) tr).
Definition releases (tr : list event) : nat :=
  length (omap (λ e, match e with Dlclose => Some () | _ => None end) tr).

(** The events after the first invocation of an export. *)
Fixpoint after_first_invoke (tr : list event) : list event :=
  match tr with
  | [] => []
  | Invoke _ :: tr' => tr'
  | _ :: tr' => after_first_invoke tr'
  end.

(** Every resolution comes before every invocation. *)
Definition resolved_before_invoked (tr : list event) : Prop :=
  resolutions (after_first_invoke tr) = [].

(** The text [s] contains the name [name]. *)
Definition mentions (name s : string) : Prop :=
  is_Some (String.index 0 name s).

Global Instance resolved_before_invoked_dec tr :
  Decision (resolved_before_invoked tr).
Proof. unfold resolved_before_invoked. apply _. Defined.
Global Instance mentions_dec name s : Decision (mentions name s).
Proof. unfold mentions. apply _. Defined.

(** A module that loads at any path and exports every name but one. *)
Definition world_without (name : string) : Host.world :=
  Host.mkWorld (λ _, None) (λ n, negb (String.eqb n name)) "0x7f3a5c000000" [].

(** A module that exports everything, and no module at all. *)
Definition world_complete : Host.world :=
  Host.mkWorld (λ _, None) (λ _, true) "0x7f3a5c000000" [].
Definition world_no_module (diagnostic : string) : Host.world :=
  Host.mkWorld (λ _, Some diagnostic) (λ _, true) "0x7f3a5c000000" [].

(** Whether the module exports all that the Host requires. *)
Definition all_exported (w : Host.world) : Prop :=
  Forall (λ name, Host.exported w name = true) required.

Global Instance all_exported_dec w : Decision (all_exported w).
Proof. unfold all_exported. apply _. Defined.

(** The events of [main] up to the check of the symbols, when the
    module loads. *)
Definition trace_resolved (w : Host.world) : list event :=
  [Dlopen module_path;
   Stdout ("[Library] Loaded at " +:+ Host.load_address w +:+ LF);
   Stdout ("[Main] Library loaded successfully" +:+ LF);
   Dlsym "lib_initialize"; Dlsym "lib_process_data";
   Dlsym "lib_execute_callback"; Dlsym "lib_increment_counter";
   Dlsym "lib_global_counter"].

(** The events of the use of the library, from a counter at [c]. *)
Definition trace_used (c : Z) : list event :=
  [Stdout (LF +:+ "=== Testing Library Functions ===" +:+ LF);
   Invoke "lib_initialize";
   Stdout ("[Library] Initializing version 1.0.0" +:+ LF);
   Stdout ("[Main] lib_initialize returned: 0" +:+ LF);
   Invoke "lib_process_data";
   Stdout ("[Main] lib_process_data returned: 21" +:+ LF);
   Stdout ("[Main] Processed string: 'YRARBIL CIMANYD OLLEH'" +:+ LF);
   Invoke "lib_execute_callback";
   Callback 87;
   Stdout ("[Main] Callback received value: 87" +:+ LF);
   Stdout ("[Main] lib_execute_callback returned: 174" +:+ LF);
   Stdout ("[Main] Initial counter value: " +:+ pretty c +:+ LF);
   Invoke "lib_increment_counter";
   Stdout ("[Main] Counter after increment: "
           +:+ pretty (CInt.add c 1) +:+ LF)].

(** The events of the release. *)
Definition trace_released : list event :=
  [Dlclose; Stdout ("[Library] Unloading" +:+ LF)].

(** ** Vocabulary of the further properties *)

(** A string with its ASCII lowercase letters mapped to uppercase. *)
Definition uppercase_string (s : list Z) : list Z := uppercase <$> s.

(** What a call in place (output and input the same pointer) leaves of
    a string: at index [i] the uppercase of the character that was at
    the larger of [i] and [len - 1 - i]. *)
Definition in_place_result (s : list Z) : list Z :=
  (λ i, uppercase (s !!! (i `max` (length s - 1 - i))%nat)) <$> seq 0 (length s).

(** The call was let through by both checks of [lib_process_data]. *)
Definition accepted (input output output_size : nat) (st : state) : Prop :=
  input ≠ 0%nat ∧ output ≠ 0%nat
  ∧ ∃ len, strlen input st = Some len ∧ (len < output_size)%nat.

(** The events after the release of the module. *)
Fixpoint after_release (tr : list event) : list event :=
  match tr with
  | [] => []
  | Dlclose :: tr' => tr'
  | _ :: tr' => after_release tr'
  end.

(** What the Host prints on the standard output when the module loads
    and exports everything. *)
Definition transcript (address : string) : list string :=
  ["[Library] Loaded at " +:+ address +:+ LF;
   "[Main] Library loaded successfully" +:+ LF;
   LF +:+ "=== Testing Library Functions ===" +:+ LF;
   "[Library] Initializing version 1.0.0" +:+ LF;
   "[Main] lib_initialize returned: 0" +:+ LF;
   "[Main] lib_process_data returned: 21" +:+ LF;
   "[Main] Processed string: 'YRARBIL CIMANYD OLLEH'" +:+ LF;
   "[Main] Callback received value: 87" +:+ LF;
   "[Main] lib_execute_callback returned: 174" +:+ LF;
   "[Main] Initial counter value: 0" +:+ LF;
   "[Main] Counter after increment: 1" +:+ LF;
   LF +:+ "[Main] Unloading library" +:+ LF;
   "[Library] Unloading" +:+ LF].

(** ** The counter in the store *)

(** [lib_global_counter] is an [int] object of the module, and the Host
    holds its address.  The field of [state] is that object as the
    module's own code names it, which is all there is to it in a
    program that, like the Host, never hands the address on.  Here the
    object is placed in the store: four cells at an address
    [counter_ptr], least significant byte first, which a [char] pointer
    handed to [lib_process_data] reaches like any other cells.  In the
    statements about this placement the counter is the object in the
    store. *)
Module Mapped.

(** The cells [bs] laid over the store from [p] on. *)
Definition patch (p : nat) (bs : list Z) (st : state) : state :=
  set_mem (list_inserts p bs (mem st)) st.

(** The four bytes of an [int] in two's complement. *)
Definition int_bytes (v : Z) : list Z :=
  [v mod 256; (v / 256) mod 256; (v / 65536) mod 256; (v / 16777216) mod 256].

(** The [int] that four cells hold; of each cell only the byte counts,
    whether the [char] in it was stored as signed or not. *)
Definition int_of_bytes (bs : list Z) : option Z :=
  match bs with
  | [b0; b1; b2; b3] =>
      Some (CInt.wrap (b0 mod 256 + 256 * (b1 mod 256)
                       + 65536 * (b2 mod 256) + 16777216 * (b3 mod 256)))
  | _ => None
  end.

(** [*p] read through an [int] pointer. *)
Definition read_int (p : nat) (st : state) : option Z :=
  if decide (p = 0%nat) then None
  else int_of_bytes (take 4 (drop p (mem st))).

(** [*p = v] through an [int] pointer. *)
Definition write_int (p : nat) (v : Z) (st : state) : option state :=
  if decide (p ≠ 0%nat ∧ (p + 4 ≤ length (mem st))%nat)
  then Some (patch p (int_bytes v) st)
  else None.

(** [lib_global_counter++] on the object at [counter_ptr]. *)
Definition lib_increment_counter_at (counter_ptr : nat) (st : state)
    : option state :=
  c ← read_int counter_ptr st;
  write_int counter_ptr (CInt.add c 1) st.

(** [n] such calls in a row. *)
Definition increments_at (counter_ptr n : nat) (st : state) : option state :=
  Nat.iter n (λ o, o ≫= lib_increment_counter_at counter_ptr) (Some st).

End Mapped.

(** The four cells from [p] on and the cells [0..len] from [q] on have
    no address in common. *)
Definition off (p q len : nat) : Prop :=
  (p + 4 ≤ q)%nat ∨ (q + len < p)%nat.

Global Instance off_dec p q len : Decision (off p q len).
Proof. unfold off. apply _. Defined.

(** * Properties *)

(** ** Arithmetic of [int] *)

Section cint_facts.
Import CInt.

Lemma wrap_in_range z : in_range (wrap z).
Proof.
  unfold in_range, wrap, min_int, max_int.
  pose proof (Z.mod_pos_bound (z + 2147483648) 4294967296). lia.
Qed.

Lemma wrap_small z : in_range z → wrap z = z.
Proof.
  unfold in_range, wrap, min_int, max_int. intros Hz.
  rewrite Z.mod_small; lia.
Qed.

(** [wrap] only sees its argument modulo 2^32. *)
Lemma wrap_shift z k : wrap (z + k * 4294967296) = wrap z.
Proof.
  unfold wrap. replace (z + k * 4294967296 + 2147483648)
    with (z + 2147483648 + k * 4294967296) by lia.
  by rewrite Z_mod_plus_full.
Qed.

Lemma wrap_decompose z : ∃ k, wrap z = z + k * 4294967296.
Proof.
  exists (- ((z + 2147483648) / 4294967296)). unfold wrap.
  rewrite Z.mod_eq by lia. lia.
Qed.

Lemma wrap_add_l a b : wrap (wrap a + b) = wrap (a + b).
Proof.
  destruct (wrap_decompose a) as [k ->].
  replace (a + k * 4294967296 + b) with (a + b + k * 4294967296) by lia.
  apply wrap_shift.
Qed.

Lemma wrap_add_r a b : wrap (a + wrap b) = wrap (a + b).
Proof. rewrite Z.add_comm, wrap_add_l. f_equal. lia. Qed.

End cint_facts.

(** ** The store *)

Section store_facts.
Local Open Scope nat_scope.

Lemma strlen_from_app (s rest : list Z) :
  Forall (λ c, c ≠ 0%Z) s → strlen_from (s ++ 0%Z :: rest) = Some (length s).
Proof.
  induction 1 as [|c s Hc _ IH]; simpl.
  - reflexivity.
  - rewrite decide_False by done. by rewrite IH.
Qed.

(** Where [strlen_from] finds the terminator, the prefix before it is
    free of zeros. *)
Lemma strlen_from_Some (cs : list Z) n :
  strlen_from cs = Some n →
  Forall (λ c, c ≠ 0%Z) (take n cs) ∧ cs !! n = Some 0%Z.
Proof.
  revert n. induction cs as [|c cs IH]; intros n; simpl; [done|].
  destruct (decide (c = 0%Z)) as [->|Hc].
  - intros [= <-]. by split; [constructor|].
  - destruct (strlen_from cs) as [m|]; simpl; [|done].
    intros [= <-]. destruct (IH m eq_refl). split; [by constructor|done].
Qed.

Lemma string_at_split p s st :
  string_at p s st → ∃ rest, drop p (mem st) = s ++ 0%Z :: rest.
Proof.
  intros (_ & _ & Htake). exists (drop (S (length s)) (drop p (mem st))).
  rewrite <- (take_drop (S (length s)) (drop p (mem st))) at 1.
  by rewrite Htake, <- app_assoc.
Qed.

Lemma string_at_lookup p s st i c :
  string_at p s st → s !! i = Some c → mem st !! (p + i) = Some c.
Proof.
  intros Hs Hi. destruct (string_at_split _ _ _ Hs) as [rest Hrest].
  rewrite <- lookup_drop, Hrest. by apply lookup_app_l_Some.
Qed.

Lemma string_at_end p s st :
  string_at p s st → mem st !! (p + length s) = Some 0%Z.
Proof.
  intros Hs. destruct (string_at_split _ _ _ Hs) as [rest Hrest].
  by rewrite <- lookup_drop, Hrest, list_lookup_middle.
Qed.

Lemma string_at_bound p s st :
  string_at p s st → p + length s < length (mem st).
Proof. intros Hs. eapply lookup_lt_Some, string_at_end, Hs. Qed.

Lemma strlen_string_at p s st :
  string_at p s st → strlen p st = Some (length s).
Proof.
  intros Hs. destruct (string_at_split _ _ _ Hs) as [rest Hrest].
  destruct Hs as (Hp & Hnz & _). unfold strlen.
  rewrite decide_False by done. rewrite Hrest. by apply strlen_from_app.
Qed.

(** Conversely, what [strlen] measures is a C string. *)
Lemma strlen_Some p n st :
  strlen p st = Some n →
  string_at p (take n (drop p (mem st))) st
  ∧ length (take n (drop p (mem st))) = n.
Proof.
  unfold strlen. destruct (decide (p = 0)) as [|Hp]; [done|]. intros Hn.
  destruct (strlen_from_Some _ _ Hn) as [Hnz Hend].
  assert (length (take n (drop p (mem st))) = n) as Hlen.
  { rewrite length_take. apply lookup_lt_Some in Hend. lia. }
  split; [|done]. split; [done|]. split; [done|]. rewrite Hlen.
  by rewrite (take_S_r _ _ _ Hend).
Qed.

End store_facts.

(** ** The loop of [lib_process_data] *)

Section process_facts.
Import SharedLib.
Local Open Scope nat_scope.

Lemma uppercase_nonzero c : c ≠ 0%Z → uppercase c ≠ 0%Z.
Proof.
  unfold uppercase, lowercase. change (chr "a") with 97%Z.
  change (chr "z") with 122%Z. case_decide; lia.
Qed.

Lemma uppercase_fixes c : ¬ lowercase c → uppercase c = c.
Proof. unfold uppercase. by case_decide. Qed.

Lemma length_reverse_uppercase s : length (reverse_uppercase s) = length s.
Proof. unfold reverse_uppercase. by rewrite length_fmap, length_reverse. Qed.

Lemma reverse_uppercase_lookup s i c :
  i < length s → s !! (length s - 1 - i) = Some c →
  reverse_uppercase s !! i = Some (uppercase c).
Proof.
  intros Hi Hc. unfold reverse_uppercase.
  rewrite list_lookup_fmap, reverse_lookup by done.
  replace (length s - S i) with (length s - 1 - i) by lia. by rewrite Hc.
Qed.

(** The conditional of the loop body is [uppercase]. *)
Lemma body_char (c : Z) :
  (if bool_decide (c >= chr "a" ∧ c <= chr "z")%Z
   then c - chr "a" + chr "A" else c)%Z = uppercase c.
Proof.
  unfold uppercase, lowercase. change (chr "a") with 97%Z.
  change (chr "z") with 122%Z. change (chr "A") with 65%Z.
  case_bool_decide; case_decide; lia.
Qed.

(** One round: the character read is stored in upper case. *)
Lemma process_body_run input output len i c st :
  input ≠ 0 → output ≠ 0 →
  mem st !! (input + (len - 1 - i)) = Some c →
  output + i < length (mem st) →
  process_body input output len i st
  = Some (log_store (output + i)
            (set_mem (<[output + i := uppercase c]> (mem st)) st)).
Proof.
  intros Hin Hout Hc Hlt. unfold process_body, load, store.
  rewrite decide_False by lia. rewrite Hc. simpl.
  rewrite decide_True by (split; lia). by rewrite body_char.
Qed.

(** The rounds [start .. start + n - 1] fill the cells of the output
    with the corresponding characters of the transformed string. *)
Lemma process_loop_run input output s n : ∀ start st,
  start + n = length s →
  input ≠ 0 → output ≠ 0 →
  output + length s ≤ length (mem st) →
  separate input output (length s) →
  (∀ j c, s !! j = Some c → mem st !! (input + j) = Some c) →
  for_range start n (process_body input output (length s)) st
  = Some (mkState
            (list_inserts (output + start)
               (take n (drop start (reverse_uppercase s))) (mem st))
            (lib_global_counter st)
            (stores st ++ seq (output + start) n)
            (trace st)).
Proof.
  induction n as [|n IH]; intros start st Hlen Hin Hout Hfit Hsep Hs.
  - simpl. rewrite app_nil_r. by destruct st.
  - assert (start < length s) as Hstart by lia.
    destruct (lookup_lt_is_Some_2 s (length s - 1 - start)) as [c Hc]; [lia|].
    simpl. erewrite process_body_run; [|done|done|by apply Hs|lia]. simpl.
    rewrite IH; simpl.
    + f_equal. f_equal.
      * rewrite (drop_S _ (uppercase c) start)
          by (by apply reverse_uppercase_lookup).
        simpl. rewrite <- list_insert_inserts_lt by lia.
        by rewrite Nat.add_succ_r.
      * by rewrite <- app_assoc, Nat.add_succ_r.
    + lia.
    + done.
    + done.
    + by rewrite length_insert.
    + done.
    + intros j c' Hj. rewrite list_lookup_insert_ne; [by apply Hs|].
      apply lookup_lt_Some in Hj. destruct Hsep; lia.
Qed.

(** A call with a string at [input], room at [output] and no overlap
    takes the third exit, having written the transformed string and
    its terminator. *)
Lemma process_data_run input output output_size s st :
  string_at input s st → buffer_at output output_size st →
  length s < output_size → separate input output (length s) →
  lib_process_data input output output_size st
  = Some (CInt.wrap (Z.of_nat (length s)), processed output s st).
Proof.
  intros Hs [Hout Hfit] Hlt Hsep. unfold lib_process_data.
  pose proof Hs as (Hin & _ & _).
  rewrite bool_decide_eq_false_2 by lia.
  rewrite (strlen_string_at _ _ _ Hs). simpl.
  rewrite bool_decide_eq_false_2 by lia.
  rewrite (process_loop_run input output s); [|lia|done|done|lia|done|].
  2: { intros j c Hj. by eapply string_at_lookup. }
  simpl. unfold store. simpl.
  rewrite decide_True by (rewrite length_inserts; lia). simpl.
  do 2 f_equal. unfold log_store, set_mem, processed. simpl. f_equal.
  - rewrite Nat.add_0_r, drop_0, firstn_all2
      by (by rewrite length_reverse_uppercase).
    rewrite list_inserts_app_l, length_reverse_uppercase. simpl.
    by rewrite (Nat.add_comm (length s)).
  - rewrite Nat.add_0_r, <- app_assoc. f_equal.
    change (output :: seq (S output) (length s)) with (seq output (S (length s))).
    by rewrite seq_S.
Qed.

End process_facts.

(** ** The three exits of [lib_process_data] *)

Section exits.
Import SharedLib.
Local Open Scope nat_scope.

Lemma process_body_length input output len i st st' :
  process_body input output len i st = Some st' →
  length (mem st') = length (mem st).
Proof.
  unfold process_body, store.
  destruct (load (input + (len - 1 - i)) st) as [c|]; simpl; [|done].
  case_decide; [|done]. intros [= <-]. simpl. apply length_insert.
Qed.

Lemma process_loop_length input output len n : ∀ start st st',
  for_range start n (process_body input output len) st = Some st' →
  length (mem st') = length (mem st).
Proof.
  induction n as [|n IH]; intros start st st'; simpl.
  - by intros [= ->].
  - destruct (process_body input output len start st) as [st1|] eqn:Hb;
      simpl; [|done].
    intros H%IH. by rewrite H, (process_body_length _ _ _ _ _ _ Hb).
Qed.

Lemma process_loop_stores input output len n : ∀ start st,
  start + n ≤ len →
  input ≠ 0 → output ≠ 0 →
  input + len ≤ length (mem st) →
  output + start + n ≤ length (mem st) →
  ∃ st', for_range start n (process_body input output len) st = Some st'
    ∧ stores st' = stores st ++ seq (output + start) n
    ∧ same_but (output + start) (output + start + n) st st'.
Proof.
  induction n as [|n IH]; intros start st Hle Hin Hout Hread Hfit.
  - exists st. simpl. rewrite app_nil_r. by repeat split.
  - destruct (lookup_lt_is_Some_2 (mem st) (input + (len - 1 - start)))
      as [c Hc]; [lia|].
    simpl. erewrite process_body_run; [|done|done|done|lia]. simpl.
    edestruct (IH (S start)) as (st' & -> & Hst & Hlen & Hcnt & Htr & Hmem);
      [ | done | done | | | ]; simpl; rewrite ?length_insert; [lia..|].
    exists st'. split; [done|]. simpl in *. split.
    { by rewrite Hst, <- app_assoc, Nat.add_succ_r. }
    rewrite length_insert in Hlen. repeat split; [done..|].
    intros a Ha. rewrite Hmem by lia. apply list_lookup_insert_ne. lia.
Qed.

(** First exit: a null pointer or a zero capacity. *)
Lemma process_data_invalid input output output_size st :
  input = 0 ∨ output = 0 ∨ output_size = 0 →
  lib_process_data input output output_size st = Some ((-1)%Z, st).
Proof.
  intros H. unfold lib_process_data. by rewrite bool_decide_eq_true_2.
Qed.

(** Second exit: the string and its terminator do not fit. *)
Lemma process_data_too_small input output output_size len st :
  input ≠ 0 → output ≠ 0 → output_size ≠ 0 →
  strlen input st = Some len → output_size ≤ len →
  lib_process_data input output output_size st = Some ((-2)%Z, st).
Proof.
  intros Hin Hout Hsz Hlen Hle. unfold lib_process_data.
  rewrite bool_decide_eq_false_2 by lia. rewrite Hlen. simpl.
  by rewrite bool_decide_eq_true_2.
Qed.

(** Third exit, whatever the placement of the two buffers: the cells
    [0 .. len] of the output are stored to, in this order, and nothing
    else changes. *)
Lemma process_data_fits input output output_size len st :
  input ≠ 0 → output ≠ 0 →
  strlen input st = Some len → len < output_size →
  output + output_size ≤ length (mem st) →
  ∃ st', lib_process_data input output output_size st
         = Some (CInt.wrap (Z.of_nat len), st')
    ∧ stores st' = stores st ++ seq output (S len)
    ∧ same_but output (output + S len) st st'.
Proof.
  intros Hin Hout Hlen Hlt Hfit. unfold lib_process_data.
  rewrite bool_decide_eq_false_2 by lia. rewrite Hlen. simpl.
  rewrite bool_decide_eq_false_2 by lia.
  destruct (strlen_Some _ _ _ Hlen) as [Hs Hl].
  pose proof (string_at_bound _ _ _ Hs) as Hb. rewrite Hl in Hb.
  destruct (process_loop_stores input output len len 0 st)
    as (st1 & -> & Hst & Hlen1 & Hcnt & Htr & Hmem); [lia..|].
  simpl. unfold store. rewrite decide_True by (split; lia). simpl.
  eexists. split; [done|]. simpl. split.
  { rewrite Hst, Nat.add_0_r, <- app_assoc. f_equal.
    change (output :: seq (S output) len) with (seq output (S len)).
    by rewrite seq_S. }
  repeat split; simpl; rewrite ?length_insert; [done..|].
  intros a Ha. rewrite list_lookup_insert_ne by lia. apply Hmem. lia.
Qed.

(** Every call that returns left through one of the three exits. *)
Lemma process_data_inv input output output_size st r st' :
  lib_process_data input output output_size st = Some (r, st') →
  ((input = 0 ∨ output = 0 ∨ output_size = 0) ∧ r = (-1)%Z ∧ st' = st)
  ∨ (input ≠ 0 ∧ output ≠ 0 ∧ output_size ≠ 0 ∧
     ∃ len, strlen input st = Some len ∧
       ((output_size ≤ len ∧ r = (-2)%Z ∧ st' = st)
        ∨ (len < output_size ∧ r = CInt.wrap (Z.of_nat len)
           ∧ stores st' = stores st ++ seq output (S len)
           ∧ same_but output (output + S len) st st'))).
Proof.
  unfold lib_process_data. case_bool_decide as Hnull.
  { intros [= <- <-]. by left. }
  destruct (strlen input st) as [len|] eqn:Hlen; simpl; [|done].
  intros Hrun. right. repeat split; [lia..|]. exists len. split; [done|].
  case_bool_decide as Hsz.
  { injection Hrun as <- <-. by left. }
  right. split; [lia|].
  destruct (strlen_Some _ _ _ Hlen) as [Hs Hl].
  pose proof (string_at_bound _ _ _ Hs) as Hb. rewrite Hl in Hb.
  destruct (for_range 0 len (process_body input output len) st)
    as [st1|] eqn:Hloop; simpl in Hrun; [|done].
  unfold store in Hrun. case_decide as Hok; simpl in Hrun; [|done].
  injection Hrun as <- <-. split; [done|].
  (* the loop kept the size of the store, so the run is the general one *)
  pose proof (process_loop_length _ _ _ _ _ _ _ Hloop) as Hsame.
  destruct (process_data_fits input output (S len) len st)
    as (st2 & Hrun2 & Hst2 & Hsb); [lia|lia|done|lia|lia|].
  unfold lib_process_data in Hrun2.
  rewrite bool_decide_eq_false_2 in Hrun2 by lia.
  rewrite Hlen in Hrun2. simpl in Hrun2.
  rewrite bool_decide_eq_false_2 in Hrun2 by lia.
  rewrite Hloop in Hrun2. simpl in Hrun2. unfold store in Hrun2.
  rewrite decide_True in Hrun2 by done. simpl in Hrun2.
  injection Hrun2 as <-. done.
Qed.

End exits.

(** ** Strings before and after a call *)

Section strings_after.
Import SharedLib.
Local Open Scope nat_scope.

Lemma take_drop_ext (m m' : list Z) p n :
  (∀ i, i < n → m' !! (p + i) = m !! (p + i)) →
  take n (drop p m') = take n (drop p m).
Proof.
  intros H. apply list_eq. intros i. destruct (decide (i < n)).
  - rewrite !lookup_take_lt, !lookup_drop by done. by apply H.
  - by rewrite !lookup_take_ge by lia.
Qed.

(** A string away from the cells stored to is still there. *)
Lemma string_at_same_but lo hi st st' p s :
  same_but lo hi st st' → string_at p s st →
  p + length s < lo ∨ hi ≤ p → string_at p s st'.
Proof.
  intros (_ & _ & _ & Hmem) (Hp & Hnz & Htake) Hout.
  split; [done|]. split; [done|]. rewrite <- Htake.
  apply take_drop_ext. intros i Hi. apply Hmem. lia.
Qed.

Lemma take_drop_inserts (m k : list Z) p :
  p + length k ≤ length m →
  take (length k) (drop p (list_inserts p k m)) = k.
Proof.
  intros Hfit. apply list_eq. intros i. destruct (decide (i < length k)).
  - rewrite lookup_take_lt, lookup_drop by done.
    rewrite list_lookup_inserts by lia. f_equal. lia.
  - rewrite lookup_take_ge by lia. symmetry. apply lookup_ge_None. lia.
Qed.

Lemma reverse_uppercase_nonzero s :
  Forall (λ c, c ≠ 0%Z) s → Forall (λ c, c ≠ 0%Z) (reverse_uppercase s).
Proof.
  intros H. unfold reverse_uppercase. apply Forall_fmap, Forall_reverse.
  eapply Forall_impl; [done|]. intros c. apply uppercase_nonzero.
Qed.

Lemma processed_string_at output output_size s st :
  Forall (λ c, c ≠ 0%Z) s → buffer_at output output_size st →
  length s < output_size →
  string_at output (reverse_uppercase s) (processed output s st).
Proof.
  intros Hnz [Hout Hfit] Hlt. split; [done|].
  split; [by apply reverse_uppercase_nonzero|]. simpl.
  replace (S (length (reverse_uppercase s)))
    with (length (reverse_uppercase s ++ [0%Z]))
    by (rewrite length_app; simpl; lia).
  apply take_drop_inserts.
  rewrite length_app, length_reverse_uppercase. simpl. lia.
Qed.

Lemma processed_same_but output output_size s st :
  buffer_at output output_size st → length s < output_size →
  same_but output (output + S (length s)) st (processed output s st).
Proof.
  intros [Hout Hfit] Hlt. repeat split; simpl.
  - by rewrite length_inserts.
  - intros a [Ha|Ha].
    + by apply list_lookup_inserts_lt.
    + apply list_lookup_inserts_ge.
      rewrite length_app, length_reverse_uppercase. simpl. lia.
Qed.

Lemma printable_nonzero s : Forall printable s → Forall (λ c, c ≠ 0%Z) s.
Proof. intros H. eapply Forall_impl; [done|]. unfold printable. lia. Qed.

End strings_after.

(** ** Inputs of great length *)

Section long_inputs.
Import SharedLib.
Local Open Scope nat_scope.

Lemma long_store_string n : string_at 1 (replicate n (chr "A")) (long_store n).
Proof.
  split; [done|]. split.
  - apply Forall_replicate. by compute.
  - unfold long_store, mem. rewrite length_replicate.
    change (drop 1 (0%Z :: ?l)) with l.
    change (replicate n (chr "A") ++ 0%Z :: replicate (S n) 0%Z)
      with (replicate n (chr "A") ++ [0%Z] ++ replicate (S n) 0%Z).
    rewrite app_assoc. apply take_app_length'.
    rewrite length_app, length_replicate. simpl. lia.
Qed.

Lemma long_store_buffer n : buffer_at (n + 2) (S n) (long_store n).
Proof.
  split; [lia|]. unfold long_store, mem.
  rewrite length_cons, length_app, length_cons, !length_replicate. lia.
Qed.

Lemma long_store_printable n : Forall printable (replicate n (chr "A")).
Proof. apply Forall_replicate. by compute. Qed.

(** On the long store the call takes the third exit; what it returns
    is the length reduced to an [int]. *)
Lemma long_store_run n :
  lib_process_data 1 (n + 2) (S n) (long_store n)
  = Some (CInt.wrap (Z.of_nat n),
          processed (n + 2) (replicate n (chr "A")) (long_store n)).
Proof.
  pose proof (process_data_run 1 (n + 2) (S n) (replicate n (chr "A"))
                (long_store n)) as H.
  rewrite length_replicate in H.
  apply H; [apply long_store_string|apply long_store_buffer|lia|right; lia].
Qed.

(** And it has changed the first cell of the output. *)
Lemma long_store_changed n :
  0 < n →
  mem (long_store n) !! (n + 2) = Some 0%Z
  ∧ mem (processed (n + 2) (replicate n (chr "A")) (long_store n)) !! (n + 2)
    = Some (chr "A").
Proof.
  intros Hn. split.
  - unfold long_store, mem.
    replace (n + 2) with (S (length (replicate n (chr "A")) + 1))
      by (rewrite length_replicate; lia).
    rewrite lookup_cons. rewrite lookup_app_r by lia.
    by replace (_ - _) with 1 by lia.
  - unfold processed, mem at 1.
    rewrite list_lookup_inserts.
    + replace (n + 2 - (n + 2)) with 0 by lia.
      unfold reverse_uppercase.
      rewrite reverse_replicate, fmap_replicate.
      rewrite lookup_app_l by (rewrite length_replicate; lia).
      by rewrite lookup_replicate_2.
    + rewrite length_app. simpl. lia.
    + destruct (long_store_buffer n) as [_ H]. lia.
Qed.

End long_inputs.

(** * The claims about [lib_process_data] *)

Section process_claims.
Import SharedLib.
Local Open Scope nat_scope.

(** C1, as amended.  For every string [s] of printable ASCII stored at
    a non-null [input], shorter than [output_size] and not longer than
    [INT_MAX], and every non-null [output] with room for [output_size]
    characters whose cells [0 .. len] do not overlap those of the
    input string, [lib_process_data] returns [len(s)] and leaves at
    [output] the null-terminated reverse of [s] with lowercase letters
    in upper case.  In particular, for "Hello Dynamic Library" and a
    capacity of 256 it returns 21 and the output is
    "YRARBIL CIMANYD OLLEH". *)
Theorem process_data_reverses_and_uppercases :
  (∀ input output output_size s st,
      Forall printable s → string_at input s st →
      buffer_at output output_size st → length s < output_size →
      separate input output (length s) →
      (Z.of_nat (length s) <= CInt.max_int)%Z →
      ∃ st', lib_process_data input output output_size st
             = Some (Z.of_nat (length s), st')
        ∧ string_at output (reverse_uppercase s) st')
  ∧ (∀ input output st,
      string_at input (chars "Hello Dynamic Library") st →
      buffer_at output 256 st → separate input output 21 →
      ∃ st', lib_process_data input output 256 st = Some (21%Z, st')
        ∧ string_at output (chars "YRARBIL CIMANYD OLLEH") st').
Proof.
  assert (∀ input output output_size s st,
      Forall (λ c, c ≠ 0%Z) s → string_at input s st →
      buffer_at output output_size st → length s < output_size →
      separate input output (length s) →
      (Z.of_nat (length s) <= CInt.max_int)%Z →
      ∃ st', lib_process_data input output output_size st
             = Some (Z.of_nat (length s), st')
        ∧ string_at output (reverse_uppercase s) st') as Hgen.
  { intros input output output_size s st Hnz Hs Hbuf Hlt Hsep Hmax.
    exists (processed output s st). split.
    - rewrite (process_data_run _ _ _ _ _ Hs Hbuf Hlt Hsep).
      rewrite wrap_small; [done|].
      unfold CInt.in_range, CInt.min_int. lia.
    - by eapply processed_string_at. }
  split.
  - intros input output output_size s st Hpr. apply Hgen.
    by apply printable_nonzero.
  - intros input output st Hs Hbuf Hsep.
    apply (Hgen input output 256 (chars "Hello Dynamic Library") st);
      [by destruct Hs as (_ & ? & _)|done|done|compute_done|done
      |compute_done].
Qed.

(** A concrete call in the scope of C1 as amended. *)
Lemma process_data_reverses_and_uppercases_witness :
  let st := mkState (0%Z :: chars "Hi!" ++ 0%Z :: replicate 8 0%Z) 0 [] [] in
  Forall printable (chars "Hi!") ∧ string_at 1 (chars "Hi!") st
  ∧ buffer_at 5 8 st ∧ length (chars "Hi!") < 8
  ∧ separate 1 5 (length (chars "Hi!"))
  ∧ (Z.of_nat (length (chars "Hi!")) <= CInt.max_int)%Z
  ∧ ∃ st', lib_process_data 1 5 8 st = Some (3%Z, st')
      ∧ string_at 5 (chars "!IH") st'.
Proof.
  assert (Forall printable (chars "Hi!")) as H1 by compute_done.
  assert (string_at 1 (chars "Hi!")
            (mkState (0%Z :: chars "Hi!" ++ 0%Z :: replicate 8 0%Z) 0 [] []))
    as H2 by compute_done.
  assert (buffer_at 5 8
            (mkState (0%Z :: chars "Hi!" ++ 0%Z :: replicate 8 0%Z) 0 [] []))
    as H3 by compute_done.
  assert (length (chars "Hi!") < 8) as H4 by compute_done.
  assert (separate 1 5 (length (chars "Hi!"))) as H5 by compute_done.
  assert (Z.of_nat (length (chars "Hi!")) <= CInt.max_int)%Z as H6
    by compute_done.
  refine (conj H1 (conj H2 (conj H3 (conj H4 (conj H5 (conj H6 _)))))).
  exact (proj1 process_data_reverses_and_uppercases 1 5 8 (chars "Hi!") _
           H1 H2 H3 H4 H5 H6).
Defined.

(** C1 as stated fails.  Called in place (the same non-null pointer as
    input and output) on "ab" with capacity 256, the function leaves
    "BB" where the claim promises "BA"; and on a string of 2^31
    letters the value returned is [-2^31], not the length. *)
Lemma process_data_counterexample :
  (let st := mkState (0%Z :: chars "ab" ++ replicate 254 0%Z) 0 [] [] in
   Forall printable (chars "ab") ∧ string_at 1 (chars "ab") st
   ∧ buffer_at 1 256 st ∧ length (chars "ab") < 256
   ∧ ∃ st', lib_process_data 1 1 256 st = Some (2%Z, st')
       ∧ string_at 1 (chars "BB") st'
       ∧ ¬ string_at 1 (reverse_uppercase (chars "ab")) st')
  ∧ (let n := Z.to_nat 2147483648 in
     let s := replicate n (chr "A") in
     Forall printable s ∧ string_at 1 s (long_store n)
     ∧ buffer_at (n + 2) (S n) (long_store n) ∧ length s < S n
     ∧ separate 1 (n + 2) (length s)
     ∧ ∃ st', lib_process_data 1 (n + 2) (S n) (long_store n)
              = Some ((-2147483648)%Z, st')
         ∧ (-2147483648)%Z ≠ Z.of_nat (length s)).
Proof.
  split.
  - repeat split; try compute_done.
    eexists. split; [by vm_compute|]. split; compute_done.
  - intros n s. subst s.
    split; [apply long_store_printable|].
    split; [apply long_store_string|].
    split; [apply long_store_buffer|].
    rewrite length_replicate.
    split; [lia|]. split; [right; lia|].
    eexists. split; [|lia].
    rewrite long_store_run. subst n. by rewrite Z2Nat.id.
Qed.

(** The exits told apart by the value returned, for inputs whose length
    an [int] can hold: [-1] exactly for a null pointer or a zero
    capacity, [-2] exactly for a string that does not fit, and the
    length otherwise. *)
Lemma process_data_status input output output_size len st r st' :
  strlen input st = Some len → (Z.of_nat len <= CInt.max_int)%Z →
  lib_process_data input output output_size st = Some (r, st') →
  (r = (-1)%Z ↔ input = 0 ∨ output = 0 ∨ output_size = 0)
  ∧ (r = (-2)%Z ↔ output ≠ 0 ∧ output_size ≠ 0 ∧ output_size ≤ len)
  ∧ (r ≠ (-1)%Z → r ≠ (-2)%Z → r = Z.of_nat len ∧ len < output_size).
Proof.
  intros Hlen Hmax Hrun.
  assert (input ≠ 0) as Hin.
  { intros ->. unfold strlen in Hlen. by rewrite decide_True in Hlen. }
  assert (CInt.wrap (Z.of_nat len) = Z.of_nat len) as Hw.
  { apply wrap_small. unfold CInt.in_range, CInt.min_int. lia. }
  destruct (process_data_inv _ _ _ _ _ _ Hrun)
    as [(Hnull & -> & ->)|(_ & Hout & Hsz & len' & Hlen' & Hcase)].
  - split; [done|]. split; [|done]. split; [done|]. lia.
  - rewrite Hlen in Hlen'. injection Hlen' as <-.
    destruct Hcase as [(Hle & -> & ->)|(Hlt & -> & _)].
    + split; [split; [done|lia]|]. split; [done|]. done.
    + rewrite Hw. split; [split; lia|]. split; [split; lia|]. done.
Qed.

(** C4 fails on the code.  On a string of [2^32 - 1] letters, with both
    pointers non-null and a capacity of [2^32], the call takes the
    third exit, and the length returned through [int] is [-1], the
    value that reports an invalid argument. *)
Theorem process_data_long_input_returns_invalid :
  let n := Z.to_nat 4294967295 in
  string_at 1 (replicate n (chr "A")) (long_store n)
  ∧ buffer_at (n + 2) (S n) (long_store n)
  ∧ 1 ≠ 0 ∧ n + 2 ≠ 0 ∧ S n ≠ 0
  ∧ strlen 1 (long_store n) = Some n ∧ n < S n
  ∧ lib_process_data 1 (n + 2) (S n) (long_store n)
    = Some ((-1)%Z, processed (n + 2) (replicate n (chr "A")) (long_store n)).
Proof.
  intros n.
  split; [apply long_store_string|]. split; [apply long_store_buffer|].
  split; [lia|]. split; [lia|]. split; [lia|]. split.
  { rewrite (strlen_string_at _ _ _ (long_store_string n)).
    by rewrite length_replicate. }
  split; [lia|].
  rewrite long_store_run. subst n. by rewrite Z2Nat.id.
Qed.

(** C7.  In every call whose arguments are what they are declared to be
    (a null pointer, or a string at [input] and [output_size] cells at
    [output]), no cell at or past index [output_size] of the output is
    stored to, nor any cell outside the output at all.  When the value
    returned is not an error code, the cells stored to are exactly the
    indices [0 .. len(input)], which are [len(input) + 1 <= output_size]
    cells; and a string that does not fit is refused with [-2] and
    nothing stored, not cut short. *)
Theorem process_data_within_capacity input output output_size st :
  (input ≠ 0 → output ≠ 0 → output_size ≠ 0 →
   is_Some (strlen input st) ∧ output + output_size ≤ length (mem st)) →
  ∃ r st', lib_process_data input output output_size st = Some (r, st')
    ∧ (∀ a, a ∈ stored_by st st' → output ≤ a < output + output_size)
    ∧ (∀ a, ¬ (output ≤ a < output + output_size) →
            mem st' !! a = mem st !! a)
    ∧ (∀ len, strlen input st = Some len →
         (r ≠ (-1)%Z → r ≠ (-2)%Z →
            stored_by st st' = seq output (S len) ∧ S len ≤ output_size)
         ∧ (output ≠ 0 → output_size ≠ 0 → output_size ≤ len →
            r = (-2)%Z ∧ st' = st)).
Proof.
  intros Hwf.
  assert (∀ st0 : state, stored_by st0 st0 = []) as Hnone.
  { intros st0. unfold stored_by. by rewrite drop_all. }
  destruct (decide (input = 0 ∨ output = 0 ∨ output_size = 0)) as [Hnull|Hok].
  { exists (-1)%Z, st. split; [by apply process_data_invalid|].
    rewrite Hnone. split; [by intros a ?%elem_of_nil|]. split; [done|].
    intros len Hlen. split; [done|]. intros ? ? _.
    destruct Hnull as [->|[|]]; [|done..].
    unfold strlen in Hlen. by rewrite decide_True in Hlen. }
  destruct Hwf as [[len Hlen] Hfit]; [lia..|].
  destruct (decide (output_size ≤ len)) as [Hle|Hlt].
  { exists (-2)%Z, st. split; [apply (process_data_too_small _ _ _ len); lia || done|].
    rewrite Hnone. split; [by intros a ?%elem_of_nil|]. split; [done|].
    intros len' Hlen'. split; done. }
  destruct (process_data_fits input output output_size len st)
    as (st' & Hrun & Hst & _ & _ & _ & Hmem); [lia|lia|done|lia|done|].
  exists (CInt.wrap (Z.of_nat len)), st'. split; [done|].
  assert (stored_by st st' = seq output (S len)) as Hby.
  { unfold stored_by. by rewrite Hst, drop_app_length. }
  rewrite Hby. split; [|split].
  - intros a Ha%elem_of_seq. lia.
  - intros a Ha. apply Hmem. lia.
  - intros len' Hlen'. rewrite Hlen in Hlen'. injection Hlen' as <-.
    split; [intros; split; [done|lia]|]. intros. lia.
Qed.

(** A call refused for want of room, and one that fits, both within
    the scope of C7. *)
Lemma process_data_within_capacity_witness :
  let st := mkState (0%Z :: chars "abc" ++ 0%Z :: replicate 4 7%Z) 0 [] [] in
  (1 ≠ 0 → 5 ≠ 0 → 4 ≠ 0 →
   is_Some (strlen 1 st) ∧ 5 + 4 ≤ length (mem st))
  ∧ ∃ r st', lib_process_data 1 5 4 st = Some (r, st')
    ∧ (∀ a, a ∈ stored_by st st' → 5 ≤ a < 5 + 4)
    ∧ (∀ a, ¬ (5 ≤ a < 5 + 4) → mem st' !! a = mem st !! a)
    ∧ (∀ len, strlen 1 st = Some len →
         (r ≠ (-1)%Z → r ≠ (-2)%Z →
            stored_by st st' = seq 5 (S len) ∧ S len ≤ 4)
         ∧ (5 ≠ 0 → 4 ≠ 0 → 4 ≤ len → r = (-2)%Z ∧ st' = st)).
Proof.
  intros st.
  assert (1 ≠ 0 → 5 ≠ 0 → 4 ≠ 0 →
          is_Some (strlen 1 st) ∧ 5 + 4 ≤ length (mem st)) as H.
  { intros _ _ _. split; [by exists 3|]. simpl. lia. }
  exact (conj H (process_data_within_capacity 1 5 4 st H)).
Defined.

(** Whenever the length of the input fits an [int], an error code means
    that nothing at all was changed: both checks come before the first
    store. *)
Lemma process_data_error_unchanged input output output_size len st r st' :
  strlen input st = Some len → (Z.of_nat len <= CInt.max_int)%Z →
  lib_process_data input output output_size st = Some (r, st') →
  r = (-1)%Z ∨ r = (-2)%Z → st' = st.
Proof.
  intros Hlen Hmax Hrun Herr.
  assert (CInt.wrap (Z.of_nat len) = Z.of_nat len) as Hw.
  { apply wrap_small. unfold CInt.in_range, CInt.min_int. lia. }
  destruct (process_data_inv _ _ _ _ _ _ Hrun)
    as [(_ & _ & ->)|(_ & _ & _ & len' & Hlen' & Hcase)]; [done|].
  rewrite Hlen in Hlen'. injection Hlen' as <-.
  destruct Hcase as [(_ & _ & ->)|(_ & -> & _)]; [done|]. lia.
Qed.

(** C8 fails on the code.  On a string of [2^32 - 2] letters and a
    capacity one above it, the call returns [-2], the value that
    reports a buffer too small, after it has stored the transformed
    string: the first cell of the output held [0] and now holds [A]. *)
Theorem process_data_long_input_error_after_stores :
  let n := Z.to_nat 4294967294 in
  ∃ st', lib_process_data 1 (n + 2) (S n) (long_store n) = Some ((-2)%Z, st')
    ∧ mem (long_store n) !! (n + 2) = Some 0%Z
    ∧ mem st' !! (n + 2) = Some (chr "A").
Proof.
  intros n. eexists. split.
  - rewrite long_store_run. subst n. by rewrite Z2Nat.id.
  - apply long_store_changed. lia.
Qed.

(** *** The transformation applied twice *)






(** C10 as stated fails.  Called in place on "ab", the function has
    replaced the first character of its input: [a] before the call,
    [B] after it. *)
Lemma process_data_in_place_modifies_input :
  let st := mkState (0%Z :: chars "ab" ++ replicate 254 0%Z) 0 [] [] in
  string_at 1 (chars "ab") st ∧ buffer_at 1 256 st
  ∧ ∃ r st', lib_process_data 1 1 256 st = Some (r, st')
      ∧ mem st !! 1 = Some (chr "a")
      ∧ mem st' !! 1 = Some (chr "B")
      ∧ ¬ string_at 1 (chars "ab") st'.
Proof.
  split; [compute_done|]. split; [compute_done|].
  eexists _, _. split; [by vm_compute|].
  split; [done|]. split; [done|]. compute_done.
Qed.

End process_claims.


(** * The claims about the callback and the counter *)

Section callback_claims.
Import SharedLib.

Lemma internal_calculate_10 v :
  internal_calculate v 10 = CInt.wrap (v * 11 + 10).
Proof.
  unfold internal_calculate, CInt.add, CInt.mul.
  rewrite wrap_add_l, wrap_add_r. f_equal. lia.
Qed.

(** C3.  For every value [v] and every callback that only computes a
    function [f], [lib_execute_callback] computes
    [v * 10 + (v + 10) = v * 11 + 10] in 32-bit arithmetic, calls the
    callback once, on that value, and returns what the callback
    returns; with the doubling callback and 7 the value passed is 87
    and the value returned 174. *)
Theorem execute_callback_returns_callback_result (f : Z → Z) (v : Z) (st : state) :
  internal_calculate v 10 = CInt.wrap (v * 10 + (v + 10))
  ∧ internal_calculate v 10 = CInt.wrap (v * 11 + 10)
  ∧ lib_execute_callback (Some (pure_callback f)) v st
    = (f (CInt.wrap (v * 11 + 10)),
       emit (Callback (CInt.wrap (v * 11 + 10))) st)
  ∧ internal_calculate 7 10 = 87
  ∧ lib_execute_callback (Some doubling) 7 st = (174, emit (Callback 87) st)
  ∧ (lib_execute_callback (Some Host.my_callback) 7 st).1 = 174.
Proof.
  assert (internal_calculate v 10 = CInt.wrap (v * 11 + 10)) as H
    by apply internal_calculate_10.
  split; [rewrite H; f_equal; lia|]. split; [done|].
  split; [unfold lib_execute_callback, pure_callback; by rewrite H|].
  done.
Qed.

(** The value computed is [v * 11 + 10] itself when that fits an [int]. *)
Lemma internal_calculate_exact v :
  CInt.in_range (v * 11 + 10) → internal_calculate v 10 = v * 11 + 10.
Proof. intros H. by rewrite internal_calculate_10, wrap_small. Qed.

Lemma increment_counter_iter n st :
  CInt.in_range (lib_global_counter st) →
  lib_global_counter (Nat.iter n lib_increment_counter st)
  = CInt.wrap (lib_global_counter st + Z.of_nat n).
Proof.
  intros Hc. induction n as [|n IH]; simpl.
  - by rewrite Z.add_0_r, wrap_small.
  - unfold CInt.add. rewrite IH, wrap_add_l. f_equal. lia.
Qed.

End callback_claims.


(** * The Host *)

Section host_facts.
Import SharedLib Host.
Local Open Scope nat_scope.

Lemma read_string_string_at p s st :
  string_at p s st → read_string p st = Some s.
Proof.
  intros Hs. unfold read_string. rewrite (strlen_string_at _ _ _ Hs). simpl.
  f_equal. destruct (string_at_split _ _ _ Hs) as [rest ->].
  by rewrite take_app_length.
Qed.

Lemma initial_state_string w :
  string_at input (chars input_text) (initial_state w).
Proof. split; [done|]. split; [compute_done|]. reflexivity. Qed.

Lemma initial_state_buffer w : buffer_at output sizeof_output (initial_state w).
Proof.
  split; [done|]. unfold initial_state, mem.
  rewrite length_cons, length_app, length_cons, length_resize.
  compute. lia.
Qed.

(** The use of the library, on a state with the Host's two objects. *)
Lemma use_library_run st :
  string_at input (chars input_text) st →
  buffer_at output sizeof_output st →
  ∃ st', use_library st = Some st'
    ∧ trace st' = trace st ++ trace_used (lib_global_counter st)
    ∧ lib_global_counter st' = CInt.add (lib_global_counter st) 1
    ∧ string_at output (chars "YRARBIL CIMANYD OLLEH") st'.
Proof.
  intros Hs Hbuf. unfold use_library, lib_initialize, printf.
  erewrite (process_data_run input output sizeof_output (chars input_text));
    [|exact Hs|exact Hbuf|compute; lia|compute_done].
  cbn [mbind option_bind fst snd].
  erewrite (read_string_string_at output).
  2: { eapply (processed_string_at output sizeof_output (chars input_text));
         [by destruct Hs as (_ & ? & _)|exact Hbuf|compute; lia]. }
  cbn [mbind option_bind fst snd].
  eexists. split; [reflexivity|].
  split; [|split].
  - cbn [trace emit lib_execute_callback my_callback printf
           lib_increment_counter set_counter processed fst snd].
    rewrite <- !app_assoc. reflexivity.
  - reflexivity.
  - assert (length (chars input_text) < sizeof_output) as Hlt by (compute; lia).
    destruct Hs as (_ & Hnz & _).
    exact (processed_string_at output sizeof_output (chars input_text) st
             Hnz Hbuf Hlt).
Qed.

(** The three ways through [main]. *)

Lemma main_load_failure w d :
  dl_error w module_path = Some d →
  main w = Some (1%Z,
                 emit (Stderr ("Failed to load library: " +:+ d +:+ LF))
                   (emit (Dlopen module_path) (initial_state w))).
Proof.
  intros Hd. unfold main, dlopen, dlerror.
  change "./libshared14.so"%string with module_path. by rewrite Hd.
Qed.

Lemma main_symbol_failure w :
  dl_error w module_path = None → ¬ all_exported w →
  ∃ st, main w = Some (1%Z, st)
    ∧ trace st = trace_resolved w
                 ++ [Stderr ("Failed to find symbols" +:+ LF)]
                 ++ trace_released
    ∧ mem st = mem (initial_state w).
Proof.
  intros Hd Hmiss. unfold main, dlopen, dlsym.
  change "./libshared14.so"%string with module_path. rewrite Hd.
  cbn [negb].
  destruct (exported w "lib_initialize") eqn:E1,
           (exported w "lib_process_data") eqn:E2,
           (exported w "lib_execute_callback") eqn:E3,
           (exported w "lib_increment_counter") eqn:E4,
           (exported w "lib_global_counter") eqn:E5;
    cbn [negb orb];
    try (eexists; split; [reflexivity|]; split; reflexivity).
  destruct Hmiss. unfold all_exported, required. by repeat constructor.
Qed.

Lemma main_success w :
  dl_error w module_path = None → all_exported w →
  ∃ st, main w = Some (0%Z, st)
    ∧ trace st = trace_resolved w ++ trace_used 0
                 ++ [Stdout (LF +:+ "[Main] Unloading library" +:+ LF)]
                 ++ trace_released
    ∧ lib_global_counter st = 1%Z
    ∧ string_at output (chars "YRARBIL CIMANYD OLLEH") st.
Proof.
  intros Hd Hall. unfold main, dlopen, dlsym.
  change "./libshared14.so"%string with module_path. rewrite Hd.
  unfold all_exported, required in Hall.
  repeat match goal with
         | H : Forall _ (_ :: _) |- _ =>
             apply Forall_cons_1 in H as [-> H]
         end.
  cbn [negb orb].
  match goal with
  | |- ∃ _, (use_library ?st0 ≫= _) = _ ∧ _ =>
      destruct (use_library_run st0) as (st1 & -> & Htr & Hcnt & Hstr);
        [apply initial_state_string|apply initial_state_buffer|]
  end.
  cbn [mbind option_bind]. eexists. split; [reflexivity|].
  split; [|split].
  - cbn [trace dlclose unload_module lib_destructor emit printf].
    rewrite Htr. rewrite <- !app_assoc. reflexivity.
  - exact Hcnt.
  - exact Hstr.
Qed.

End host_facts.

(** * The claims about the Host *)

Section host_claims.
Import SharedLib Host.
Local Open Scope nat_scope.

(** C2, as amended.  When the module loads, the Host resolves the five
    required exports, all of them before it invokes any, and releases
    the module exactly once before it returns.  If any of the five is
    missing the run fails with exit code 1 and the single diagnostic
    "Failed to find symbols", which does not say which export is
    missing, and no exported operation (nor the callback) is invoked;
    otherwise the four functions are invoked in order and the exit code
    is 0. *)
Theorem host_resolves_before_invoking (w : world) :
  dl_error w module_path = None →
  ∃ code st, main w = Some (code, st)
    ∧ resolutions (trace st) = required
    ∧ resolved_before_invoked (trace st)
    ∧ loads (trace st) = 1 ∧ releases (trace st) = 1
    ∧ if decide (all_exported w)
      then code = 0%Z
           ∧ diagnostics (trace st) = []
           ∧ invocations (trace st)
             = ["lib_initialize"; "lib_process_data"; "lib_execute_callback";
                "lib_increment_counter"]
           ∧ callbacks (trace st) = [87%Z]
      else code = 1%Z
           ∧ diagnostics (trace st) = ["Failed to find symbols" +:+ LF]
           ∧ invocations (trace st) = []
           ∧ callbacks (trace st) = [].
Proof.
  intros Hd. destruct (decide (all_exported w)) as [Hall|Hmiss].
  - destruct (main_success w Hd Hall) as (st & Hrun & Htr & _).
    exists 0%Z, st. rewrite Htr. by repeat split.
  - destruct (main_symbol_failure w Hd Hmiss) as (st & Hrun & Htr & _).
    exists 1%Z, st. rewrite Htr. by repeat split.
Qed.

(** The module without [lib_increment_counter]. *)
Lemma host_resolves_before_invoking_witness :
  let w := world_without "lib_increment_counter" in
  dl_error w module_path = None
  ∧ ¬ all_exported w
  ∧ ∃ code st, main w = Some (code, st)
    ∧ resolutions (trace st) = required
    ∧ resolved_before_invoked (trace st)
    ∧ loads (trace st) = 1 ∧ releases (trace st) = 1
    ∧ if decide (all_exported w)
      then code = 0%Z
           ∧ diagnostics (trace st) = []
           ∧ invocations (trace st)
             = ["lib_initialize"; "lib_process_data"; "lib_execute_callback";
                "lib_increment_counter"]
           ∧ callbacks (trace st) = [87%Z]
      else code = 1%Z
           ∧ diagnostics (trace st) = ["Failed to find symbols" +:+ LF]
           ∧ invocations (trace st) = []
           ∧ callbacks (trace st) = [].
Proof.
  intros w.
  assert (dl_error w module_path = None) as H by reflexivity.
  assert (¬ all_exported w) as H' by compute_done.
  exact (conj H (conj H' (host_resolves_before_invoking w H))).
Defined.

(** C2 as stated fails.  With [lib_process_data] missing from the
    module, the run fails with exit code 1, and nothing the Host writes,
    on either stream, contains the name of the missing export (while
    the diagnostic does contain the word "symbols"). *)
Lemma host_does_not_name_missing_export :
  let w := world_without "lib_process_data" in
  dl_error w module_path = None
  ∧ exported w "lib_process_data" = false
  ∧ ∃ st, main w = Some (1%Z, st)
      ∧ diagnostics (trace st) = ["Failed to find symbols" +:+ LF]
      ∧ Forall (λ s, ¬ mentions "lib_process_data" s)
          (diagnostics (trace st) ++ printed (trace st))
      ∧ Forall (mentions "symbols") (diagnostics (trace st)).
Proof.
  split; [done|]. split; [done|]. eexists. split; [by vm_compute|].
  split; [done|]. split; compute_done.
Qed.

(** C6.  [main] always returns: with exit code 0 when the module loads
    and exports all five names (every step then runs), and with exit
    code 1 when the module does not load or a name is missing.  When
    the module does not load, the Host writes the diagnostic of the
    loader after "Failed to load library: " and does nothing more: no
    symbol is looked up, nothing is invoked, nothing released. *)
Theorem host_exit_code (w : world) :
  ∃ code st, main w = Some (code, st)
    ∧ code = (if decide (dl_error w module_path = None ∧ all_exported w)
              then 0%Z else 1%Z)
    ∧ match dl_error w module_path with
      | Some d =>
          trace st = [Dlopen module_path;
                      Stderr ("Failed to load library: " +:+ d +:+ LF)]
          ∧ resolutions (trace st) = []
          ∧ invocations (trace st) = []
          ∧ releases (trace st) = 0
      | None => resolutions (trace st) = required
      end.
Proof.
  destruct (dl_error w module_path) as [d|] eqn:Hd.
  - eexists _, _. split; [by apply main_load_failure|].
    split; [|done]. rewrite decide_False; [done|]. by intros [? _].
  - destruct (decide (all_exported w)) as [Hall|Hmiss].
    + destruct (main_success w Hd Hall) as (st & Hrun & Htr & _).
      exists 0%Z, st. rewrite Htr. split; [done|]. split; [|done].
      by rewrite decide_True.
    + destruct (main_symbol_failure w Hd Hmiss) as (st & Hrun & Htr & _).
      exists 1%Z, st. rewrite Htr. split; [done|]. split; [|done].
      rewrite decide_False; [done|]. by intros [_ ?].
Qed.

(** No module at the path: exit code 1, the loader's diagnostic on
    the error stream, and nothing else. *)
Example host_run_no_module :
  ∃ st, main (world_no_module "libshared14.so: cannot open shared object file")
        = Some (1%Z, st)
    ∧ trace st
      = [Dlopen module_path;
         Stderr ("Failed to load library: "
                 +:+ "libshared14.so: cannot open shared object file" +:+ LF)].
Proof. eexists. split; [by vm_compute|]. reflexivity. Qed.

(** The end-to-end run with a complete module: exit code 0 and the
    output of the demonstration. *)
Example host_run_complete :
  ∃ st, main world_complete = Some (0%Z, st)
    ∧ printed (trace st)
      = ["[Library] Loaded at 0x7f3a5c000000" +:+ LF;
         "[Main] Library loaded successfully" +:+ LF;
         LF +:+ "=== Testing Library Functions ===" +:+ LF;
         "[Library] Initializing version 1.0.0" +:+ LF;
         "[Main] lib_initialize returned: 0" +:+ LF;
         "[Main] lib_process_data returned: 21" +:+ LF;
         "[Main] Processed string: 'YRARBIL CIMANYD OLLEH'" +:+ LF;
         "[Main] Callback received value: 87" +:+ LF;
         "[Main] lib_execute_callback returned: 174" +:+ LF;
         "[Main] Initial counter value: 0" +:+ LF;
         "[Main] Counter after increment: 1" +:+ LF;
         LF +:+ "[Main] Unloading library" +:+ LF;
         "[Library] Unloading" +:+ LF]
    ∧ lib_global_counter st = 1%Z.
Proof. eexists. split; [by vm_compute|]. split; reflexivity. Qed.

End host_claims.


(** * Further properties of the Module *)

Section process_further.
Import SharedLib.
Local Open Scope nat_scope.

(** X1.  When the length of the input fits an [int], the value
    returned tells the three exits apart: it is [-1] exactly for a null
    pointer or a zero capacity, [-2] exactly for a string that does not
    fit with its terminator, and otherwise the length of the input,
    which is then below the capacity.  The least capacity that accepts
    a string is its length plus one. *)
Theorem process_data_return_value input output output_size st :
  (input ≠ 0 →
   ∃ len, strlen input st = Some len ∧ (Z.of_nat len <= CInt.max_int)%Z) →
  (input ≠ 0 → output ≠ 0 → output_size ≠ 0 →
   output + output_size ≤ length (mem st)) →
  ∃ r st', lib_process_data input output output_size st = Some (r, st')
    ∧ (r = (-1)%Z ↔ input = 0 ∨ output = 0 ∨ output_size = 0)
    ∧ (r = (-2)%Z ↔
       input ≠ 0 ∧ output ≠ 0 ∧ output_size ≠ 0
       ∧ ∃ len, strlen input st = Some len ∧ output_size ≤ len)
    ∧ ((0 <= r)%Z ↔
       input ≠ 0 ∧ output ≠ 0
       ∧ ∃ len, strlen input st = Some len ∧ len < output_size
                ∧ r = Z.of_nat len)
    ∧ (-2 <= r <= CInt.max_int)%Z.
Proof.
  intros Hstr Hbuf.
  destruct (decide (input = 0 ∨ output = 0 ∨ output_size = 0)) as [Hnull|Hok].
  { exists (-1)%Z, st. split; [by apply process_data_invalid|].
    split; [done|]. split; [split; [done|intros (?&?&?&_); lia]|].
    split; [split; [lia|]|unfold CInt.max_int; lia].
    intros (? & ? & len & Hlen & ? & ?). lia. }
  destruct Hstr as (len & Hlen & Hmax); [lia|].
  destruct (decide (output_size ≤ len)) as [Hle|Hlt].
  { exists (-2)%Z, st.
    split; [apply (process_data_too_small _ _ _ len); lia || done|].
    split; [split; [done|lia]|].
    split; [split; [intros _; repeat split; [lia..|by exists len]|done]|].
    split; [split; [lia|]|unfold CInt.max_int; lia].
    intros (_ & _ & len' & Hlen' & ? & _).
    rewrite Hlen in Hlen'. injection Hlen' as <-. lia. }
  destruct (process_data_fits input output output_size len st)
    as (st' & Hrun & _); [lia|lia|done|lia|apply Hbuf; lia|].
  rewrite wrap_small in Hrun
    by (unfold CInt.in_range, CInt.min_int; lia).
  exists (Z.of_nat len), st'. split; [done|].
  split; [split; [lia|done]|].
  split.
  { split; [lia|]. intros (_ & _ & _ & len' & Hlen' & ?).
    rewrite Hlen in Hlen'. injection Hlen' as <-. lia. }
  split; [|lia].
  split; [|lia]. intros _. split; [lia|]. split; [lia|].
  exists len. split; [done|]. split; [lia|done].
Qed.

(** "abc" against capacities 3 and 4: refused, then accepted. *)
Lemma process_data_return_value_witness :
  let st := mkState (0%Z :: chars "abc" ++ 0%Z :: replicate 4 7%Z) 0 [] [] in
  lib_process_data 1 5 3 st = Some ((-2)%Z, st)
  ∧ ∃ r st', lib_process_data 1 5 4 st = Some (r, st')
    ∧ (r = (-1)%Z ↔ 1 = 0 ∨ 5 = 0 ∨ 4 = 0)
    ∧ (r = (-2)%Z ↔
       1 ≠ 0 ∧ 5 ≠ 0 ∧ 4 ≠ 0 ∧ ∃ len, strlen 1 st = Some len ∧ 4 ≤ len)
    ∧ ((0 <= r)%Z ↔
       1 ≠ 0 ∧ 5 ≠ 0
       ∧ ∃ len, strlen 1 st = Some len ∧ len < 4 ∧ r = Z.of_nat len)
    ∧ (-2 <= r <= CInt.max_int)%Z.
Proof.
  intros st. split; [reflexivity|].
  apply (process_data_return_value 1 5 4 st).
  - intros _. exists 3. split; [reflexivity|]. unfold CInt.max_int. lia.
  - intros _ _ _. simpl. lia.
Defined.

(** X2.  When the length of the input fits an [int], a negative value
    returned means that the call has done nothing: the whole state,
    store included, is as it was.  A value that is not negative means
    that the call has stored, the terminator at least. *)
Theorem process_data_negative_unchanged input output output_size st r st' :
  (input ≠ 0 →
   ∃ len, strlen input st = Some len ∧ (Z.of_nat len <= CInt.max_int)%Z) →
  lib_process_data input output output_size st = Some (r, st') →
  ((r < 0)%Z → st' = st)
  ∧ ((0 <= r)%Z →
     stored_by st st' = seq output (S (Z.to_nat r))
     ∧ mem st' !! (output + Z.to_nat r) = Some 0%Z).
Proof.
  intros Hstr Hrun.
  destruct (process_data_inv _ _ _ _ _ _ Hrun)
    as [(_ & -> & ->)|(Hin & Hout & Hsz & len & Hlen & Hcase)];
    [split; [done|lia]|].
  destruct Hcase as [(_ & -> & ->)|(Hlt & -> & Hst & Hsb)]; [split; [done|lia]|].
  destruct (Hstr Hin) as (len' & Hlen' & Hmax).
  rewrite Hlen in Hlen'. injection Hlen' as <-.
  rewrite wrap_small by (unfold CInt.in_range, CInt.min_int; lia).
  split; [lia|]. intros _. rewrite Nat2Z.id. split.
  - unfold stored_by. by rewrite Hst, drop_app_length.
  - clear Hst Hsb. unfold lib_process_data in Hrun.
    rewrite bool_decide_eq_false_2 in Hrun by lia.
    rewrite Hlen in Hrun. simpl in Hrun.
    rewrite bool_decide_eq_false_2 in Hrun by lia.
    destruct (for_range 0 len (process_body input output len) st)
      as [st1|]; simpl in Hrun; [|done].
    unfold store in Hrun. case_decide as Hok; simpl in Hrun; [|done].
    injection Hrun as <-. simpl. apply list_lookup_insert_eq, Hok.
Qed.

(** A refused call and an accepted one. *)
Lemma process_data_negative_unchanged_witness :
  let st := mkState (0%Z :: chars "abc" ++ 0%Z :: replicate 4 7%Z) 0 [] [] in
  ((1 ≠ 0 →
    ∃ len, strlen 1 st = Some len ∧ (Z.of_nat len <= CInt.max_int)%Z)
   ∧ lib_process_data 1 5 3 st = Some ((-2)%Z, st))
  ∧ (((-2) < 0)%Z → st = st)
  ∧ ((0 <= -2)%Z →
     stored_by st st = seq 5 (S (Z.to_nat (-2)))
     ∧ mem st !! (5 + Z.to_nat (-2)) = Some 0%Z).
Proof.
  intros st.
  assert (1 ≠ 0 →
          ∃ len, strlen 1 st = Some len ∧ (Z.of_nat len <= CInt.max_int)%Z)
    as H1.
  { intros _. exists 3. split; [reflexivity|]. unfold CInt.max_int. lia. }
  assert (lib_process_data 1 5 3 st = Some ((-2)%Z, st)) as H2 by reflexivity.
  exact (conj (conj H1 H2)
           (process_data_negative_unchanged 1 5 3 st (-2)%Z st H1 H2)).
Defined.

(** X3.  The empty string: when [input] points at a terminator, every
    call with a non-null output and a capacity of at least one returns
    0 and stores one character, the terminator at [output[0]]; one cell
    at [output] is all the room it needs.  This holds in place too,
    where the store is then the same after the call as before. *)
Theorem process_data_empty input output output_size st :
  input ≠ 0 → mem st !! input = Some 0%Z →
  output ≠ 0 → output_size ≠ 0 → output < length (mem st) →
  lib_process_data input output output_size st
  = Some (0%Z, log_store output (set_mem (<[output := 0%Z]> (mem st)) st))
  ∧ (output = input → <[output := 0%Z]> (mem st) = mem st).
Proof.
  intros Hin Hnul Hout Hsz Hfit. split.
  - assert (strlen input st = Some 0) as Hlen.
    { unfold strlen. rewrite decide_False by done.
      destruct (drop input (mem st)) as [|c cs] eqn:Hdrop.
      - apply (f_equal (λ l, l !! 0)) in Hdrop.
        rewrite lookup_drop, Nat.add_0_r, Hnul in Hdrop. done.
      - apply (f_equal (λ l, l !! 0)) in Hdrop.
        rewrite lookup_drop, Nat.add_0_r, Hnul in Hdrop.
        injection Hdrop as <-. reflexivity. }
    unfold lib_process_data. rewrite bool_decide_eq_false_2 by lia.
    rewrite Hlen. simpl. rewrite bool_decide_eq_false_2 by lia.
    unfold store. simpl. rewrite Nat.add_0_r.
    by rewrite decide_True by (split; [done|lia]).
  - intros ->. by apply list_insert_id.
Qed.

(** The empty string transformed in place, in a store of two cells. *)
Lemma process_data_empty_witness :
  let st := mkState [7%Z; 0%Z] 0 [] [] in
  (1 ≠ 0 ∧ mem st !! 1 = Some 0%Z ∧ 1 ≠ 0 ∧ 1 < length (mem st))
  ∧ lib_process_data 1 1 1 st
    = Some (0%Z, log_store 1 (set_mem (<[1 := 0%Z]> (mem st)) st))
  ∧ (1 = 1 → <[1 := 0%Z]> (mem st) = mem st).
Proof.
  intros st.
  assert (1 ≠ 0) as H1 by lia.
  assert (mem st !! 1 = Some 0%Z) as H2 by reflexivity.
  assert (1 < length (mem st)) as H3 by (simpl; lia).
  exact (conj (conj H1 (conj H2 (conj H1 H3)))
           (process_data_empty 1 1 1 st H1 H2 H1 H1 H3)).
Defined.

Lemma uppercase_not_lowercase c : ¬ lowercase (uppercase c).
Proof.
  unfold uppercase, lowercase. change (chr "a") with 97%Z.
  change (chr "z") with 122%Z. case_decide; lia.
Qed.

Lemma uppercase_idempotent c : uppercase (uppercase c) = uppercase c.
Proof. apply uppercase_fixes, uppercase_not_lowercase. Qed.

Lemma reverse_uppercase_twice s :
  reverse_uppercase (reverse_uppercase s) = uppercase_string s.
Proof.
  unfold reverse_uppercase, uppercase_string.
  rewrite <- fmap_reverse, reverse_involutive, <- list_fmap_compose.
  apply list_fmap_ext. intros _ c _. apply uppercase_idempotent.
Qed.

Lemma reverse_uppercase_thrice s :
  reverse_uppercase (uppercase_string s) = reverse_uppercase s.
Proof.
  unfold reverse_uppercase, uppercase_string.
  rewrite <- fmap_reverse, <- list_fmap_compose.
  apply list_fmap_ext. intros _ c _. apply uppercase_idempotent.
Qed.

(** X4.  For every string, with lowercase letters or without, two
    calls of [lib_process_data] through buffers that do not overlap
    leave the string in upper case, in its original order; a third
    call, from there into a further buffer, leaves once more what the
    first call left. *)
Theorem process_data_twice_uppercases input middle output last output_size s st :
  string_at input s st → length s < output_size →
  buffer_at middle output_size st → buffer_at output output_size st →
  buffer_at last output_size st →
  separate input middle (length s) → separate middle output (length s) →
  separate output last (length s) →
  ∃ st1 st2 st3,
    lib_process_data input middle output_size st
    = Some (CInt.wrap (Z.of_nat (length s)), st1)
    ∧ lib_process_data middle output output_size st1
      = Some (CInt.wrap (Z.of_nat (length s)), st2)
    ∧ string_at middle (reverse_uppercase s) st1
    ∧ string_at middle (reverse_uppercase s) st2
    ∧ string_at output (uppercase_string s) st2
    ∧ Forall (λ c, ¬ lowercase c) (uppercase_string s)
    ∧ lib_process_data output last output_size st2
      = Some (CInt.wrap (Z.of_nat (length s)), st3)
    ∧ string_at last (reverse_uppercase s) st3
    ∧ string_at output (uppercase_string s) st3.
Proof.
  intros Hs Hlt Hmid Hout Hlast Hsep1 Hsep2 Hsep3.
  pose proof Hs as (_ & Hnz & _).
  pose proof (processed_string_at middle output_size s st Hnz Hmid Hlt) as Hs1.
  assert (buffer_at output output_size (processed middle s st)) as Hout1.
  { destruct Hout as [? Hfit]. split; [done|]. simpl.
    by rewrite length_inserts. }
  assert (length (reverse_uppercase s) = length s) as Hlen
    by apply length_reverse_uppercase.
  assert (length (uppercase_string s) = length s) as Hlen'
    by (unfold uppercase_string; by rewrite length_fmap).
  set (st1 := processed middle s st).
  set (st2 := processed output (reverse_uppercase s) st1).
  set (st3 := processed last (uppercase_string s) st2).
  assert (string_at output (uppercase_string s) st2) as Hs2.
  { rewrite <- reverse_uppercase_twice.
    eapply processed_string_at; [|exact Hout1|by rewrite Hlen].
    by apply reverse_uppercase_nonzero. }
  assert (buffer_at last output_size st2) as Hlast2.
  { destruct Hlast as [? Hfit]. split; [done|]. simpl.
    by rewrite !length_inserts. }
  exists st1, st2, st3.
  split; [by apply process_data_run|].
  split.
  { rewrite <- Hlen at 1. apply process_data_run; by rewrite ?Hlen. }
  split; [done|].
  split.
  { eapply string_at_same_but; [|exact Hs1|].
    - eapply processed_same_but; [exact Hout1|by rewrite Hlen].
    - rewrite !Hlen. destruct Hsep2; lia. }
  split; [done|].
  split.
  { unfold uppercase_string. apply Forall_fmap, Forall_forall.
    intros c _. apply uppercase_not_lowercase. }
  split.
  { rewrite <- Hlen' at 1. apply process_data_run; by rewrite ?Hlen'. }
  split.
  { rewrite <- reverse_uppercase_thrice.
    eapply processed_string_at; [|exact Hlast2|by rewrite Hlen'].
    destruct Hs2 as (_ & ? & _). done. }
  eapply string_at_same_but; [|exact Hs2|].
  - eapply processed_same_but; [exact Hlast2|by rewrite Hlen'].
  - rewrite !Hlen'. destruct Hsep3; lia.
Qed.

(** "Hello, World" through three buffers of capacity 16. *)
Lemma process_data_twice_uppercases_witness :
  let s := chars "Hello, World" in
  let st := mkState (0%Z :: s ++ 0%Z :: replicate 48 0%Z) 0 [] [] in
  (string_at 1 s st ∧ length s < 16 ∧ buffer_at 14 16 st ∧ buffer_at 30 16 st
   ∧ buffer_at 46 16 st
   ∧ separate 1 14 (length s) ∧ separate 14 30 (length s)
   ∧ separate 30 46 (length s))
  ∧ uppercase_string s = chars "HELLO, WORLD"
  ∧ reverse_uppercase s = chars "DLROW ,OLLEH"
  ∧ ∃ st1 st2 st3,
      lib_process_data 1 14 16 st = Some (CInt.wrap (Z.of_nat (length s)), st1)
      ∧ lib_process_data 14 30 16 st1
        = Some (CInt.wrap (Z.of_nat (length s)), st2)
      ∧ string_at 14 (reverse_uppercase s) st1
      ∧ string_at 14 (reverse_uppercase s) st2
      ∧ string_at 30 (uppercase_string s) st2
      ∧ Forall (λ c, ¬ lowercase c) (uppercase_string s)
      ∧ lib_process_data 30 46 16 st2
        = Some (CInt.wrap (Z.of_nat (length s)), st3)
      ∧ string_at 46 (reverse_uppercase s) st3
      ∧ string_at 30 (uppercase_string s) st3.
Proof.
  intros s st.
  assert (string_at 1 s st) as H1 by compute_done.
  assert (length s < 16) as H2 by compute_done.
  assert (buffer_at 14 16 st) as H3 by compute_done.
  assert (buffer_at 30 16 st) as H4 by compute_done.
  assert (buffer_at 46 16 st) as H5 by compute_done.
  assert (separate 1 14 (length s)) as H6 by compute_done.
  assert (separate 14 30 (length s)) as H7 by compute_done.
  assert (separate 30 46 (length s)) as H8 by compute_done.
  refine (conj (conj H1 (conj H2 (conj H3 (conj H4 (conj H5
                 (conj H6 (conj H7 H8)))))))
            (conj eq_refl (conj eq_refl _))).
  exact (process_data_twice_uppercases 1 14 30 46 16 s st
           H1 H2 H3 H4 H5 H6 H7 H8).
Defined.

(** *** Calls whose buffers overlap *)

(** A list with [n] characters that are not zero and then a zero is
    measured as [n] by [strlen]. *)
Lemma strlen_from_lookup (cs : list Z) n :
  (∀ i, i < n → ∃ c, cs !! i = Some c ∧ c ≠ 0%Z) →
  cs !! n = Some 0%Z → strlen_from cs = Some n.
Proof.
  revert cs. induction n as [|n IH]; intros cs Hnz Hend.
  - destruct cs as [|c cs]; [done|]. injection Hend as ->. reflexivity.
  - destruct cs as [|c cs]; [done|]. simpl.
    destruct (Hnz 0) as (c' & Hc' & Hne); [lia|]. injection Hc' as <-.
    rewrite decide_False by done. rewrite IH; [done| |done].
    intros i Hi. apply (Hnz (S i)). lia.
Qed.

(** The rounds of the loop, wherever input and output lie: if the cells
    of the input all hold characters that are not zero, so they do
    afterwards, and the cells of the output written hold characters
    that are neither zero nor lowercase letters. *)
Lemma process_loop_clean input output len n : ∀ start st st',
  start + n = len → input ≠ 0 → output ≠ 0 →
  (∀ j, j < len → ∃ c, mem st !! (input + j) = Some c ∧ c ≠ 0%Z) →
  (∀ i, i < start →
        ∃ c, mem st !! (output + i) = Some c ∧ c ≠ 0%Z ∧ ¬ lowercase c) →
  for_range start n (process_body input output len) st = Some st' →
  ∀ i, i < len →
       ∃ c, mem st' !! (output + i) = Some c ∧ c ≠ 0%Z ∧ ¬ lowercase c.
Proof.
  induction n as [|n IH]; intros start st st' Hlen Hin Hout Hsrc Hdst; simpl.
  - intros [= <-] i Hi. apply Hdst. lia.
  - destruct (Hsrc (len - 1 - start)) as (c & Hc & Hne); [lia|].
    destruct (process_body input output len start st) as [st1|] eqn:Hbody;
      simpl; [|done].
    assert (output + start < length (mem st)) as Hfit.
    { unfold process_body, load, store in Hbody.
      rewrite decide_False in Hbody by lia. rewrite Hc in Hbody.
      simpl in Hbody. case_decide; [lia|done]. }
    rewrite (process_body_run _ _ _ _ c) in Hbody by done.
    injection Hbody as <-. apply IH; simpl; [lia|done|done| |].
    + intros j Hj. destruct (decide (input + j = output + start)) as [->|Hne'].
      * exists (uppercase c). rewrite list_lookup_insert_eq by done.
        split; [done|]. by apply uppercase_nonzero.
      * rewrite list_lookup_insert_ne by done. by apply Hsrc.
    + intros i Hi. destruct (decide (i = start)) as [->|Hne'].
      * exists (uppercase c). rewrite list_lookup_insert_eq by done.
        split; [done|]. split; [by apply uppercase_nonzero|].
        apply uppercase_not_lowercase.
      * rewrite list_lookup_insert_ne by lia. apply Hdst. lia.
Qed.

(** X5.  Wherever the two buffers lie, overlapping or not, a call that
    passes the checks leaves at [output] a C string of exactly the
    length the input had, without any lowercase letter, and returns
    that length reduced to an [int]. *)
Theorem process_data_output_is_string input output output_size len st :
  input ≠ 0 → output ≠ 0 →
  strlen input st = Some len → len < output_size →
  output + output_size ≤ length (mem st) →
  ∃ st' t, lib_process_data input output output_size st
           = Some (CInt.wrap (Z.of_nat len), st')
    ∧ string_at output t st' ∧ length t = len
    ∧ strlen output st' = Some len
    ∧ Forall (λ c, ¬ lowercase c) t.
Proof.
  intros Hin Hout Hlen Hlt Hfit.
  destruct (strlen_Some _ _ _ Hlen) as [Hs Hl].
  pose proof (string_at_bound _ _ _ Hs) as Hb. rewrite Hl in Hb.
  destruct (process_loop_stores input output len len 0 st)
    as (st1 & Hloop & _ & Hlen1 & _); [lia..|].
  assert (∀ i, i < len →
            ∃ c, mem st1 !! (output + i) = Some c ∧ c ≠ 0%Z ∧ ¬ lowercase c)
    as Hclean.
  { eapply (process_loop_clean input output len len 0 st);
      [lia|done|done| |intros; lia|done].
    intros j Hj.
    destruct (lookup_lt_is_Some_2 (take len (drop input (mem st))) j)
      as [c Hc]; [lia|].
    exists c. split; [by eapply string_at_lookup|].
    destruct Hs as (_ & Hnz & _).
    by eapply (proj1 (Forall_lookup _ _) Hnz). }
  set (st' := log_store (output + len)
                (set_mem (<[output + len := 0%Z]> (mem st1)) st1)).
  assert (lib_process_data input output output_size st
          = Some (CInt.wrap (Z.of_nat len), st')) as Hrun.
  { unfold lib_process_data. rewrite bool_decide_eq_false_2 by lia.
    rewrite Hlen. simpl. rewrite bool_decide_eq_false_2 by lia.
    rewrite Hloop. simpl. unfold store.
    by rewrite decide_True by (split; lia). }
  assert (strlen output st' = Some len) as Hlen'.
  { unfold strlen. rewrite decide_False by done.
    apply strlen_from_lookup.
    - intros i Hi. destruct (Hclean i Hi) as (c & Hc & Hne & _).
      exists c. split; [|done]. rewrite lookup_drop. simpl.
      by rewrite list_lookup_insert_ne by lia.
    - rewrite lookup_drop. simpl. apply list_lookup_insert_eq. lia. }
  destruct (strlen_Some _ _ _ Hlen') as [Hs' Hl'].
  exists st', (take len (drop output (mem st'))).
  split; [done|]. split; [done|]. split; [done|]. split; [done|].
  apply Forall_lookup. intros i c Hi.
  pose proof (lookup_lt_Some _ _ _ Hi) as Hlt'. rewrite Hl' in Hlt'.
  rewrite lookup_take_lt, lookup_drop in Hi by done. simpl in Hi.
  rewrite list_lookup_insert_ne in Hi by lia.
  destruct (Hclean i Hlt') as (c' & Hc' & _ & Hup). congruence.
Qed.

(** Output one cell above the input: the buffers overlap. *)
Lemma process_data_output_is_string_witness :
  let st := mkState (0%Z :: chars "abcd" ++ replicate 4 0%Z) 0 [] [] in
  (1 ≠ 0 ∧ 2 ≠ 0 ∧ strlen 1 st = Some 4 ∧ 4 < 6 ∧ 2 + 6 ≤ length (mem st))
  ∧ ∃ st' t, lib_process_data 1 2 6 st = Some (CInt.wrap (Z.of_nat 4), st')
      ∧ string_at 2 t st' ∧ length t = 4
      ∧ strlen 2 st' = Some 4
      ∧ Forall (λ c, ¬ lowercase c) t.
Proof.
  intros st.
  assert (1 ≠ 0) as H1 by lia. assert (2 ≠ 0) as H2 by lia.
  assert (strlen 1 st = Some 4) as H3 by reflexivity.
  assert (4 < 6) as H4 by lia.
  assert (2 + 6 ≤ length (mem st)) as H5 by (simpl; lia).
  exact (conj (conj H1 (conj H2 (conj H3 (conj H4 H5))))
           (process_data_output_is_string 1 2 6 4 st H1 H2 H3 H4 H5)).
Defined.

Lemma length_in_place_result s : length (in_place_result s) = length s.
Proof. unfold in_place_result. by rewrite length_fmap, length_seq. Qed.

Lemma in_place_result_lookup s i :
  i < length s →
  in_place_result s !! i
  = Some (uppercase (s !!! (i `max` (length s - 1 - i)))).
Proof.
  intros Hi. unfold in_place_result.
  by rewrite list_lookup_fmap, lookup_seq_lt.
Qed.

(** What is left in place reads the same in both directions. *)
Lemma in_place_result_palindrome s :
  reverse (in_place_result s) = in_place_result s.
Proof.
  apply list_eq. intros i.
  destruct (decide (i < length s)) as [Hi|Hi].
  - rewrite reverse_lookup by (by rewrite length_in_place_result).
    rewrite length_in_place_result, !in_place_result_lookup by lia.
    do 3 f_equal. lia.
  - rewrite !lookup_ge_None_2;
      rewrite ?length_reverse, ?length_in_place_result; [done|lia..].
Qed.

(** The rounds of the loop when output and input are the same pointer
    [p]: the cells below [start] already hold the result, those from
    [start] on still hold the string. *)
Lemma process_loop_in_place p s n : ∀ start st st',
  start + n = length s → p ≠ 0 →
  (∀ i, i < start → mem st !! (p + i) = in_place_result s !! i) →
  (∀ i, start ≤ i → i < length s → mem st !! (p + i) = s !! i) →
  for_range start n (process_body p p (length s)) st = Some st' →
  ∀ i, i < length s → mem st' !! (p + i) = in_place_result s !! i.
Proof.
  induction n as [|n IH]; intros start st st' Hlen Hp Hdone Hleft; simpl.
  - intros [= <-] i Hi. apply Hdone. lia.
  - set (j := length s - 1 - start).
    assert (∃ c, mem st !! (p + j) = Some c
                 ∧ uppercase c
                   = uppercase (s !!! (start `max` (length s - 1 - start))))
      as (c & Hc & Hup).
    { destruct (decide (j < start)) as [Hlt|Hge].
      - exists (uppercase (s !!! (j `max` (length s - 1 - j)))).
        rewrite Hdone, in_place_result_lookup by (unfold j; lia).
        split; [done|]. rewrite uppercase_idempotent.
        do 2 f_equal. unfold j. lia.
      - destruct (lookup_lt_is_Some_2 s j) as [c Hc]; [unfold j; lia|].
        exists c. rewrite Hleft by (unfold j; lia). split; [done|].
        rewrite (list_lookup_total_correct s _ c); [done|].
        rewrite <- Hc. f_equal. unfold j. lia. }
    destruct (process_body p p (length s) start st) as [st1|] eqn:Hbody;
      simpl; [|done].
    assert (p + start < length (mem st)) as Hfit.
    { unfold process_body, load, store in Hbody.
      rewrite decide_False in Hbody by lia. fold j in Hbody.
      rewrite Hc in Hbody. simpl in Hbody. case_decide; [lia|done]. }
    rewrite (process_body_run _ _ _ _ c) in Hbody by done.
    injection Hbody as <-. apply IH; simpl; [lia|done| |].
    + intros i Hi. destruct (decide (i = start)) as [->|Hne].
      * rewrite list_lookup_insert_eq by done.
        by rewrite in_place_result_lookup, Hup by lia.
      * rewrite list_lookup_insert_ne by lia. apply Hdone. lia.
    + intros i Hi Hi'. rewrite list_lookup_insert_ne by lia.
      apply Hleft; lia.
Qed.

(** X6.  Called in place, with the one pointer as input and output,
    [lib_process_data] does not reverse the string: it leaves a
    palindrome, in which index [i] holds the uppercase of the character
    that was at the larger of [i] and [len - 1 - i] (the second half,
    in upper case, mirrored onto the first).  Nothing outside the
    string and its terminator changes. *)
Theorem process_data_in_place p output_size s st :
  string_at p s st → length s < output_size →
  p + output_size ≤ length (mem st) →
  ∃ st', lib_process_data p p output_size st
         = Some (CInt.wrap (Z.of_nat (length s)), st')
    ∧ string_at p (in_place_result s) st'
    ∧ reverse (in_place_result s) = in_place_result s
    ∧ same_but p (p + S (length s)) st st'.
Proof.
  intros Hs Hlt Hfit. pose proof Hs as (Hp & Hnz & _).
  pose proof (strlen_string_at _ _ _ Hs) as Hlen.
  destruct (process_data_fits p p output_size (length s) st)
    as (st' & Hrun & _ & Hsb); [done..|].
  exists st'. split; [done|]. split; [|split; [|done]];
    [|apply in_place_result_palindrome].
  unfold lib_process_data in Hrun.
  rewrite bool_decide_eq_false_2 in Hrun by lia.
  rewrite Hlen in Hrun. simpl in Hrun.
  rewrite bool_decide_eq_false_2 in Hrun by lia.
  destruct (for_range 0 (length s) (process_body p p (length s)) st)
    as [st1|] eqn:Hloop; simpl in Hrun; [|done].
  unfold store in Hrun. case_decide as Hok; simpl in Hrun; [|done].
  injection Hrun as <-.
  pose proof (process_loop_in_place p s (length s) 0 st st1) as Hres.
  split; [done|]. split.
  { apply Forall_lookup. intros i c Hi.
    pose proof (lookup_lt_Some _ _ _ Hi) as Hlt'.
    rewrite length_in_place_result in Hlt'.
    rewrite in_place_result_lookup in Hi by done. injection Hi as <-.
    apply uppercase_nonzero.
    eapply (proj1 (Forall_lookup _ _) Hnz), list_lookup_lookup_total_lt. lia. }
  simpl. rewrite length_in_place_result. apply list_eq. intros i.
  destruct (decide (i < S (length s))) as [Hi|Hi].
  - rewrite lookup_take_lt, lookup_drop by done.
    destruct (decide (i = length s)) as [->|Hne].
    + rewrite list_lookup_insert_eq by lia.
      rewrite lookup_app_r by (by rewrite length_in_place_result).
      by rewrite length_in_place_result, Nat.sub_diag.
    + rewrite list_lookup_insert_ne by lia.
      rewrite lookup_app_l by (rewrite length_in_place_result; lia).
      apply Hres; [lia|done|intros; lia| |done|lia].
      intros j _ Hj. destruct (lookup_lt_is_Some_2 s j) as [c Hc]; [done|].
      rewrite Hc. by eapply string_at_lookup.
  - rewrite lookup_take_ge by lia. symmetry. apply lookup_ge_None_2.
    rewrite length_app, length_in_place_result. simpl. lia.
Qed.

(** "Hello" in place becomes "OLLLO". *)
Lemma process_data_in_place_witness :
  let s := chars "Hello" in
  let st := mkState (0%Z :: s ++ replicate 3 0%Z) 0 [] [] in
  (string_at 1 s st ∧ length s < 8 ∧ 1 + 8 ≤ length (mem st))
  ∧ in_place_result s = chars "OLLLO"
  ∧ ∃ st', lib_process_data 1 1 8 st
           = Some (CInt.wrap (Z.of_nat (length s)), st')
      ∧ string_at 1 (in_place_result s) st'
      ∧ reverse (in_place_result s) = in_place_result s
      ∧ same_but 1 (1 + S (length s)) st st'.
Proof.
  intros s st.
  assert (string_at 1 s st) as H1 by compute_done.
  assert (length s < 8) as H2 by compute_done.
  assert (1 + 8 ≤ length (mem st)) as H3 by (simpl; lia).
  exact (conj (conj H1 (conj H2 H3))
           (conj eq_refl (process_data_in_place 1 8 s st H1 H2 H3))).
Defined.

End process_further.

Section counter_further.
Import SharedLib.

Lemma wrap_mul_l a b : CInt.wrap (CInt.wrap a * b) = CInt.wrap (a * b).
Proof.
  destruct (wrap_decompose a) as [k ->].
  replace ((a + k * 4294967296) * b) with (a * b + (k * b) * 4294967296) by lia.
  apply wrap_shift.
Qed.

(** Two integers have the same reduction exactly when they differ by a
    multiple of 2^32. *)
Lemma wrap_idem a : CInt.wrap (CInt.wrap a) = CInt.wrap a.
Proof. apply wrap_small, wrap_in_range. Qed.

Lemma wrap_eq_iff a b :
  CInt.wrap a = CInt.wrap b ↔ ((a - b) mod 4294967296 = 0)%Z.
Proof.
  split.
  - intros H. destruct (wrap_decompose a) as [k Hk].
    destruct (wrap_decompose b) as [k' Hk'].
    replace (a - b) with ((k' - k) * 4294967296) by lia.
    apply Z_mod_mult.
  - intros H. apply Z.mod_divide in H; [|lia]. destruct H as [q Hq].
    replace a with (b + q * 4294967296) by lia. apply wrap_shift.
Qed.

(** X7.  From any value of the counter, [n] calls of
    [lib_increment_counter] leave it at the old value plus [n], reduced
    to 32 bits.  So the counter is back at its old value exactly when
    [n] is a multiple of 2^32, and one increment at [INT_MAX] gives
    [INT_MIN]. *)
Theorem increment_counter_period (n : nat) (st : state) :
  CInt.in_range (lib_global_counter st) →
  lib_global_counter (Nat.iter n lib_increment_counter st)
  = CInt.wrap (lib_global_counter st + Z.of_nat n)
  ∧ (lib_global_counter (Nat.iter n lib_increment_counter st)
     = lib_global_counter st
     ↔ (Z.of_nat n mod 4294967296 = 0)%Z)
  ∧ (lib_global_counter st = CInt.max_int →
     lib_global_counter (lib_increment_counter st) = CInt.min_int).
Proof.
  intros Hc.
  assert (lib_global_counter (Nat.iter n lib_increment_counter st)
          = CInt.wrap (lib_global_counter st + Z.of_nat n)) as Hn
    by (by apply increment_counter_iter).
  split; [done|]. split.
  - rewrite Hn. rewrite <- (wrap_small (lib_global_counter st)) at 2 by done.
    rewrite wrap_eq_iff. by replace (_ + _ - _) with (Z.of_nat n) by lia.
  - intros Hmax. unfold lib_increment_counter. simpl. by rewrite Hmax.
Qed.

(** Three increments from 2147483646 pass over [INT_MAX]. *)
Lemma increment_counter_period_witness :
  let st := mkState [] 2147483646 [] [] in
  CInt.in_range (lib_global_counter st)
  ∧ lib_global_counter (Nat.iter 3 lib_increment_counter st)
    = (-2147483647)%Z
  ∧ (lib_global_counter (Nat.iter 3 lib_increment_counter st)
     = lib_global_counter st
     ↔ (Z.of_nat 3 mod 4294967296 = 0)%Z)
  ∧ (lib_global_counter st = CInt.max_int →
     lib_global_counter (lib_increment_counter st) = CInt.min_int).
Proof.
  intros st.
  assert (CInt.in_range (lib_global_counter st)) as H by compute_done.
  exact (conj H (increment_counter_period 3 st H)).
Defined.

(** X9.  With the Host's callback, [lib_execute_callback] returns
    [2 * (11 * v + 10)] in 32-bit arithmetic for every [v]; the callback
    is entered once, with [11 * v + 10], prints that value, and neither
    the store nor the counter changes.  The value returned is even, so
    it is never the [-1] that the function returns, touching nothing,
    for an absent callback. *)
Theorem execute_callback_my_callback (v : Z) (st : state) :
  lib_execute_callback (Some Host.my_callback) v st
  = (CInt.wrap (22 * v + 20),
     emit (Stdout ("[Main] Callback received value: "
                   +:+ pretty (CInt.wrap (11 * v + 10)) +:+ LF))
       (emit (Callback (CInt.wrap (11 * v + 10))) st))
  ∧ CInt.wrap (22 * v + 20) ≠ (-1)
  ∧ lib_execute_callback None v st = (-1, st).
Proof.
  split; [|split; [|done]].
  - unfold lib_execute_callback, Host.my_callback, Host.printf.
    rewrite internal_calculate_10. unfold CInt.mul. rewrite wrap_mul_l.
    replace (v * 11 + 10) with (11 * v + 10) by lia.
    do 2 f_equal. lia.
  - destruct (wrap_decompose (22 * v + 20)) as [k ->]. lia.
Qed.

(** X10.  The helper [internal_calculate] is [(a + 1) * (b + 1) - 1] in
    32-bit arithmetic.  It is therefore commutative and associative,
    has 0 as its unit and [-1] as an absorbing value. *)
Theorem internal_calculate_monoid (a b c : Z) :
  internal_calculate a b = CInt.wrap ((a + 1) * (b + 1) - 1)
  ∧ internal_calculate a b = internal_calculate b a
  ∧ internal_calculate (internal_calculate a b) c
    = internal_calculate a (internal_calculate b c)
  ∧ internal_calculate a 0 = CInt.wrap a
  ∧ internal_calculate a (-1) = (-1).
Proof.
  assert (∀ x y, internal_calculate x y = CInt.wrap ((x + 1) * (y + 1) - 1))
    as Hform.
  { intros x y. unfold internal_calculate, CInt.add, CInt.mul.
    rewrite wrap_add_l, wrap_add_r. f_equal. lia. }
  split; [done|]. split; [|split; [|split]].
  - rewrite !Hform. f_equal. lia.
  - rewrite (Hform _ c), (Hform a _), !Hform.
    destruct (wrap_decompose ((a + 1) * (b + 1) - 1)) as [k ->].
    destruct (wrap_decompose ((b + 1) * (c + 1) - 1)) as [k' ->].
    replace (((a + 1) * (b + 1) - 1 + k * 4294967296 + 1) * (c + 1) - 1)
      with ((a + 1) * (b + 1) * (c + 1) - 1 + (k * (c + 1)) * 4294967296)
      by ring.
    replace ((a + 1) * ((b + 1) * (c + 1) - 1 + k' * 4294967296 + 1) - 1)
      with ((a + 1) * (b + 1) * (c + 1) - 1 + ((a + 1) * k') * 4294967296)
      by ring.
    by rewrite !wrap_shift.
  - rewrite Hform. f_equal. lia.
  - rewrite Hform. by replace ((a + 1) * (-1 + 1) - 1) with (-1) by lia.
Qed.

End counter_further.

(** * Further properties of the Host *)

Section host_further.
Import SharedLib Host.
Local Open Scope nat_scope.

(** The store after the use of the library: only the call of
    [lib_process_data] has written to it. *)
Lemma use_library_store st st' :
  string_at input (chars input_text) st →
  buffer_at output sizeof_output st →
  use_library st = Some st' →
  mem st' = list_inserts output (chars "YRARBIL CIMANYD OLLEH" ++ [0%Z]) (mem st).
Proof.
  intros Hs Hbuf. unfold use_library, lib_initialize, printf.
  erewrite (process_data_run input output sizeof_output (chars input_text));
    [|exact Hs|exact Hbuf|compute; lia|compute_done].
  cbn [mbind option_bind fst snd].
  erewrite (read_string_string_at output).
  2: { eapply (processed_string_at output sizeof_output (chars input_text));
         [by destruct Hs as (_ & ? & _)|exact Hbuf|compute; lia]. }
  cbn [mbind option_bind fst snd]. by intros [= <-].
Qed.

(** X11.  Whenever the module loads and exports the five names, the run
    of the Host ends with exit code 0, nothing on the error stream, the
    counter at 1 and this transcript on the standard output, in which
    only the address printed by the constructor depends on the
    environment.  What the array [output] held before the call plays no
    part: its first 22 cells end up holding "YRARBIL CIMANYD OLLEH" and
    the terminator, and every other cell of the store, the string
    literal included, is as it was. *)
Theorem host_success_transcript (w : world) :
  dl_error w module_path = None → all_exported w →
  ∃ st, main w = Some (0%Z, st)
    ∧ printed (trace st) = transcript (load_address w)
    ∧ diagnostics (trace st) = []
    ∧ lib_global_counter st = 1%Z
    ∧ string_at output (chars "YRARBIL CIMANYD OLLEH") st
    ∧ string_at input (chars input_text) st
    ∧ ∀ a, a < output ∨ output + 22 ≤ a →
           mem st !! a = mem (initial_state w) !! a.
Proof.
  intros Hd Hall.
  destruct (main_success w Hd Hall) as (st & Hrun & Htr & Hcnt & Hstr).
  exists st. split; [done|]. rewrite Htr.
  split; [done|]. split; [done|]. split; [done|]. split; [done|].
  assert (mem st = list_inserts output (chars "YRARBIL CIMANYD OLLEH" ++ [0%Z])
                     (mem (initial_state w))) as Hmem.
  { revert Hrun. unfold main, dlopen, dlsym.
    change "./libshared14.so"%string with module_path. rewrite Hd.
    unfold all_exported, required in Hall.
    repeat match goal with
           | H : Forall _ (_ :: _) |- _ =>
               apply Forall_cons_1 in H as [-> H]
           end.
    cbn [negb orb].
    match goal with
    | |- (use_library ?st0 ≫= _) = _ → _ =>
        destruct (use_library st0) as [st1|] eqn:Huse; [|done];
        apply use_library_store in Huse;
          [|apply initial_state_string|apply initial_state_buffer]
    end.
    cbn [mbind option_bind]. intros [= <-]. exact Huse. }
  assert (∀ a, a < output ∨ output + 22 ≤ a →
               mem st !! a = mem (initial_state w) !! a) as Hframe.
  { intros a [Ha|Ha]; rewrite Hmem.
    - by apply list_lookup_inserts_lt.
    - by apply list_lookup_inserts_ge. }
  split; [|done].
  pose proof (initial_state_string w) as (Hp & Hnz & Htake).
  split; [done|]. split; [done|]. rewrite <- Htake.
  apply take_drop_ext. intros i Hi. apply Hframe. left.
  change (length (chars input_text)) with 21 in Hi.
  change input with 1. change output with 23. lia.
Qed.

(** The complete module, with [output] full of the letter [x]. *)
Lemma host_success_transcript_witness :
  let w := mkWorld (λ _, None) (λ _, true) "0x7f3a5c000000"
                   (replicate 256 (chr "x")) in
  (dl_error w module_path = None ∧ all_exported w)
  ∧ ∃ st, main w = Some (0%Z, st)
    ∧ printed (trace st) = transcript (load_address w)
    ∧ diagnostics (trace st) = []
    ∧ lib_global_counter st = 1%Z
    ∧ string_at output (chars "YRARBIL CIMANYD OLLEH") st
    ∧ string_at input (chars input_text) st
    ∧ ∀ a, a < output ∨ output + 22 ≤ a →
           mem st !! a = mem (initial_state w) !! a.
Proof.
  intros w.
  assert (dl_error w module_path = None) as H1 by reflexivity.
  assert (all_exported w) as H2 by compute_done.
  exact (conj (conj H1 H2) (host_success_transcript w H1 H2)).
Defined.

(** X12.  The life cycle of the module in every run of the Host: the
    module is released once if it was loaded and never otherwise, and
    after the release nothing is resolved, invoked or called back.
    When the module loads, the first line on the standard output is the
    constructor's and the last event of the run is the destructor's
    line; when it does not, the Host prints nothing there. *)
Theorem host_life_cycle (w : world) :
  ∃ code st, main w = Some (code, st)
    ∧ loads (trace st) = 1
    ∧ releases (trace st)
      = (if decide (dl_error w module_path = None) then 1 else 0)
    ∧ resolutions (after_release (trace st)) = []
    ∧ invocations (after_release (trace st)) = []
    ∧ callbacks (after_release (trace st)) = []
    ∧ match dl_error w module_path with
      | None =>
          head (printed (trace st))
          = Some ("[Library] Loaded at " +:+ load_address w +:+ LF)
          ∧ last (trace st) = Some (Stdout ("[Library] Unloading" +:+ LF))
      | Some _ => printed (trace st) = []
      end.
Proof.
  destruct (dl_error w module_path) as [d|] eqn:Hd.
  - eexists _, _. split; [by apply main_load_failure|]. by repeat split.
  - destruct (decide (all_exported w)) as [Hall|Hmiss].
    + destruct (main_success w Hd Hall) as (st & Hrun & Htr & _).
      exists 0%Z, st. rewrite Htr. by repeat split.
    + destruct (main_symbol_failure w Hd Hmiss) as (st & Hrun & Htr & _).
      exists 1%Z, st. rewrite Htr. by repeat split.
Qed.

End host_further.

(** * The mystery program *)

Section mystery.
Import Mystery.
Local Open Scope nat_scope.

Lemma rot13_involutive c : rot13 (rot13 c) = c.
Proof.
  unfold rot13. change (chr "a") with 97%Z. change (chr "z") with 122%Z.
  change (chr "A") with 65%Z. change (chr "Z") with 90%Z.
  repeat case_decide; Z.div_mod_to_equations; lia.
Qed.

Lemma rot13_nonzero c : c ≠ 0%Z → rot13 c ≠ 0%Z.
Proof.
  unfold rot13. change (chr "a") with 97%Z. change (chr "z") with 122%Z.
  change (chr "A") with 65%Z. change (chr "Z") with 90%Z.
  repeat case_decide; Z.div_mod_to_equations; lia.
Qed.

(** One round of [d4e5f6]: the character read is stored rotated. *)
Lemma d4e5f6_body_run input output i c st :
  input ≠ 0 → output ≠ 0 →
  mem st !! (input + i) = Some c → output + i < length (mem st) →
  d4e5f6_body input output i st
  = Some (log_store (output + i)
            (set_mem (<[output + i := rot13 c]> (mem st)) st)).
Proof.
  intros Hin Hout Hc Hfit. unfold d4e5f6_body, load.
  rewrite decide_False by lia. rewrite Hc. simpl.
  assert (∀ v, store (output + i) v st
               = Some (log_store (output + i)
                         (set_mem (<[output + i := v]> (mem st)) st))) as Hst.
  { intros v. unfold store. by rewrite decide_True by (split; lia). }
  rewrite !Hst. unfold rot13.
  change (chr "a") with 97%Z. change (chr "z") with 122%Z.
  change (chr "A") with 65%Z. change (chr "Z") with 90%Z.
  repeat case_bool_decide; repeat case_decide; try lia;
    rewrite ?Z.rem_mod_nonneg by lia; done.
Qed.

(** The rounds [start .. start + n - 1] of [d4e5f6], the block lying
    after the cells [m] the string is in. *)
Lemma d4e5f6_loop input m s n : ∀ start rest cnt sts tr,
  start + n ≤ length s → input ≠ 0 → m ≠ [] →
  (∀ j c, s !! j = Some c → m !! (input + j) = Some c) →
  n ≤ length rest →
  for_range start n (d4e5f6_body input (length m))
    (mkState (m ++ (rot13 <$> take start s) ++ rest) cnt sts tr)
  = Some (mkState (m ++ (rot13 <$> take (start + n) s) ++ drop n rest) cnt
            (sts ++ seq (length m + start) n) tr).
Proof.
  induction n as [|n IH]; intros start rest cnt sts tr Hlen Hin Hm Hs Hrest.
  - simpl. by rewrite Nat.add_0_r, app_nil_r, drop_0.
  - destruct rest as [|r rest]; [simpl in Hrest; lia|].
    destruct (lookup_lt_is_Some_2 s start) as [c Hc]; [lia|].
    assert (length (rot13 <$> take start s) = start) as Hdone.
    { rewrite length_fmap, length_take. lia. }
    assert (length m ≠ 0) as Hm' by (by destruct m).
    simpl. erewrite (d4e5f6_body_run _ _ _ c); [|done|done| |]; simpl.
    + rewrite insert_app_r, insert_app_r_alt by lia.
      rewrite Hdone, Nat.sub_diag. unfold log_store, set_mem. simpl.
      specialize (IH (S start) rest cnt (sts ++ [length m + start]) tr).
      rewrite (take_S_r _ _ _ Hc), fmap_app, <- app_assoc in IH. simpl in IH.
      rewrite IH; [|lia|done|done|done|simpl in Hrest; lia].
      rewrite <- (app_assoc sts), !Nat.add_succ_r. reflexivity.
    + rewrite lookup_app_l; [by apply Hs|].
      eapply lookup_lt_Some, Hs, Hc.
    + rewrite !length_app, Hdone. simpl. lia.
Qed.

(** The run of [d4e5f6] whenever the length kept in the [int] is
    neither negative nor [INT_MAX]: that many characters are rotated
    into the block, and the terminator follows them. *)
Lemma d4e5f6_run fresh input s st k :
  string_at input s st →
  CInt.wrap (Z.of_nat (length s)) = Z.of_nat k →
  (Z.of_nat k < CInt.max_int)%Z →
  k ≤ length s
  ∧ ∃ st', d4e5f6 fresh input st = Some (length (mem st), st')
    ∧ mem st' = mem st ++ (rot13 <$> take k s) ++ [0%Z]
    ∧ stores st' = stores st ++ seq (length (mem st)) (S k)
    ∧ lib_global_counter st' = lib_global_counter st
    ∧ trace st' = trace st.
Proof.
  intros Hs Hk Hmax. pose proof Hs as (Hin & Hnz & Htake).
  pose proof (string_at_bound _ _ _ Hs) as Hb.
  assert (k ≤ length s) as Hle.
  { destruct (wrap_decompose (Z.of_nat (length s))) as [q Hq].
    unfold CInt.max_int in Hmax. lia. }
  split; [done|].
  assert (mem st ≠ []) as Hm'.
  { destruct (mem st); [simpl in Hb; lia|done]. }
  unfold d4e5f6. rewrite (strlen_string_at _ _ _ Hs). simpl.
  rewrite Hk. rewrite bool_decide_eq_false_2 by lia.
  unfold malloc. rewrite Nat2Z.id.
  replace (Z.to_nat (Z.of_nat k + 1)) with (S k) by lia.
  destruct st as [m cnt sts tr]. simpl in *.
  pose proof (d4e5f6_loop input m s k 0 (resize (S k) 0%Z fresh)
                cnt sts tr) as Hloop.
  simpl in Hloop. unfold set_mem. simpl. rewrite Hloop;
    [|lia|done|done| |rewrite length_resize; lia].
  2: { intros j c Hj. by apply (string_at_lookup input s (mkState m cnt sts tr)). }
  clear Hloop. simpl.
  assert (length (rot13 <$> take k s) = k) as Hlen
    by (rewrite length_fmap, length_take; lia).
  assert (∃ r, drop k (resize (S k) 0%Z fresh) = [r]) as [r Hr].
  { destruct (drop k (resize (S k) 0%Z fresh)) as [|r [|r' l]] eqn:Hd.
    - apply (f_equal length) in Hd.
      rewrite length_drop, length_resize in Hd. simpl in Hd. lia.
    - by exists r.
    - apply (f_equal length) in Hd.
      rewrite length_drop, length_resize in Hd. simpl in Hd. lia. }
  rewrite Hr. unfold store. simpl.
  rewrite decide_True by (rewrite !length_app, Hlen; simpl; split; lia).
  simpl. eexists. split; [reflexivity|]. simpl.
  split; [|split; [|done]].
  - rewrite insert_app_r. rewrite <- Hlen at 1.
    by rewrite <- (Nat.add_0_r (length _)), insert_app_r.
  - rewrite <- app_assoc. f_equal.
    change (length m :: seq (S (length m)) k) with (seq (length m) (S k)).
    by rewrite seq_S, Nat.add_0_r.
Qed.

(** A string stays where it is when cells are added past the store. *)
Lemma string_at_extend p s st st' ext :
  string_at p s st → mem st' = mem st ++ ext → string_at p s st'.
Proof.
  intros Hs Hmem. pose proof (string_at_bound _ _ _ Hs) as Hb.
  destruct Hs as (Hp & Hnz & Htake). split; [done|]. split; [done|].
  rewrite <- Htake, Hmem. rewrite drop_app_le by lia.
  apply take_app_le. rewrite length_drop. lia.
Qed.

(** Characters and a terminator added past the store are a string. *)
Lemma string_at_block m t st' :
  m ≠ [] → Forall (λ c, c ≠ 0%Z) t → mem st' = m ++ t ++ [0%Z] →
  string_at (length m) t st'.
Proof.
  intros Hm Hnz Hmem. split; [by destruct m|]. split; [done|].
  rewrite Hmem, drop_app_length. apply take_ge.
  rewrite length_app. simpl. lia.
Qed.

Lemma rot13_string_nonzero (s : list Z) :
  Forall (λ c, c ≠ 0%Z) s → Forall (λ c, c ≠ 0%Z) (rot13 <$> s).
Proof.
  intros H. apply Forall_fmap. eapply Forall_impl; [done|].
  intros c. apply rot13_nonzero.
Qed.

Lemma rot13_string_involutive (s : list Z) : rot13 <$> (rot13 <$> s) = s.
Proof.
  rewrite <- list_fmap_compose.
  rewrite (list_fmap_ext (rot13 ∘ rot13) id s)
    by (intros; apply rot13_involutive).
  apply list_fmap_id.
Qed.

(** X13.  For a string [s] shorter than [INT_MAX], [d4e5f6] returns a
    fresh non-null block just past the old store, holding [s] with every
    letter rotated by 13 places within its case and every other
    character as it was, then the terminator; the old store, the input
    included, is unchanged, and the block has exactly [len + 1] cells,
    all of them stored to. *)
Theorem d4e5f6_rot13 fresh input s st :
  string_at input s st → (Z.of_nat (length s) < CInt.max_int)%Z →
  ∃ st', d4e5f6 fresh input st = Some (length (mem st), st')
    ∧ length (mem st) ≠ 0
    ∧ mem st' = mem st ++ (rot13 <$> s) ++ [0%Z]
    ∧ string_at (length (mem st)) (rot13 <$> s) st'
    ∧ string_at input s st'
    ∧ stored_by st st' = seq (length (mem st)) (S (length s))
    ∧ lib_global_counter st' = lib_global_counter st
    ∧ trace st' = trace st.
Proof.
  intros Hs Hmax. pose proof Hs as (Hin & Hnz & Htake).
  pose proof (string_at_bound _ _ _ Hs) as Hb.
  destruct (d4e5f6_run fresh input s st (length s) Hs)
    as (_ & st' & Hrun & Hmem & Hst & Hcnt & Htr); [|done|].
  { apply wrap_small. unfold CInt.in_range, CInt.min_int, CInt.max_int in *. lia. }
  rewrite firstn_all in Hmem.
  assert (mem st ≠ []) as Hm by (destruct (mem st); [simpl in Hb; lia|done]).
  exists st'. split; [done|]. split; [lia|]. split; [done|].
  split; [|split; [|split; [|done]]].
  - eapply string_at_block; [done|by apply rot13_string_nonzero|done].
  - by eapply string_at_extend.
  - unfold stored_by. by rewrite Hst, drop_app_length.
Qed.

(** "Hello, World!" becomes "Uryyb, Jbeyq!". *)
Lemma d4e5f6_rot13_witness :
  let s := chars "Hello, World!" in
  let st := mkState (0%Z :: s ++ [0%Z]) 0 [] [] in
  (string_at 1 s st ∧ (Z.of_nat (length s) < CInt.max_int)%Z)
  ∧ rot13 <$> s = chars "Uryyb, Jbeyq!"
  ∧ ∃ st', d4e5f6 [] 1 st = Some (length (mem st), st')
    ∧ length (mem st) ≠ 0
    ∧ mem st' = mem st ++ (rot13 <$> s) ++ [0%Z]
    ∧ string_at (length (mem st)) (rot13 <$> s) st'
    ∧ string_at 1 s st'
    ∧ stored_by st st' = seq (length (mem st)) (S (length s))
    ∧ lib_global_counter st' = lib_global_counter st
    ∧ trace st' = trace st.
Proof.
  intros s st.
  assert (string_at 1 s st) as H1 by compute_done.
  assert (Z.of_nat (length s) < CInt.max_int)%Z as H2 by compute_done.
  exact (conj (conj H1 H2) (conj eq_refl (d4e5f6_rot13 [] 1 s st H1 H2))).
Defined.

(** X14.  [d4e5f6] undoes itself: applied to the block it has returned,
    it returns a second block that holds the original string, for every
    string shorter than [INT_MAX]; the first block and the input are
    both still there. *)
Theorem d4e5f6_round_trip fresh1 fresh2 input s st :
  string_at input s st → (Z.of_nat (length s) < CInt.max_int)%Z →
  ∃ p1 st1 p2 st2,
    d4e5f6 fresh1 input st = Some (p1, st1)
    ∧ d4e5f6 fresh2 p1 st1 = Some (p2, st2)
    ∧ string_at p2 s st2
    ∧ string_at p1 (rot13 <$> s) st2
    ∧ string_at input s st2
    ∧ input ≠ p1 ∧ p1 ≠ p2 ∧ input ≠ p2.
Proof.
  intros Hs Hmax. pose proof Hs as (Hin & Hnz & _).
  pose proof (string_at_bound _ _ _ Hs) as Hb.
  assert (mem st ≠ []) as Hm by (destruct (mem st); [simpl in Hb; lia|done]).
  assert (∀ n, (Z.of_nat n < CInt.max_int)%Z
               → CInt.wrap (Z.of_nat n) = Z.of_nat n) as Hw.
  { intros n Hn. apply wrap_small.
    unfold CInt.in_range, CInt.min_int, CInt.max_int in *. lia. }
  destruct (d4e5f6_run fresh1 input s st (length s) Hs)
    as (_ & st1 & Hrun1 & Hmem1 & _); [by apply Hw|done|].
  rewrite firstn_all in Hmem1.
  assert (string_at (length (mem st)) (rot13 <$> s) st1) as Hs1.
  { eapply string_at_block; [done|by apply rot13_string_nonzero|done]. }
  assert (mem st1 ≠ []) as Hm1 by (rewrite Hmem1; by destruct (mem st)).
  destruct (d4e5f6_run fresh2 (length (mem st)) (rot13 <$> s) st1
              (length s) Hs1)
    as (_ & st2 & Hrun2 & Hmem2 & _);
    [rewrite length_fmap; by apply Hw|done|].
  rewrite <- (length_fmap rot13 s) in Hmem2 at 1.
  rewrite firstn_all, rot13_string_involutive in Hmem2.
  exists (length (mem st)), st1, (length (mem st1)), st2.
  split; [done|]. split; [done|].
  split; [by eapply string_at_block|].
  split; [by eapply string_at_extend|].
  split; [eapply string_at_extend; [|done]; by eapply string_at_extend|].
  rewrite Hmem1, !length_app. simpl. lia.
Qed.

(** "Attack at dawn" there and back. *)
Lemma d4e5f6_round_trip_witness :
  let s := chars "Attack at dawn" in
  let st := mkState (0%Z :: s ++ [0%Z]) 0 [] [] in
  (string_at 1 s st ∧ (Z.of_nat (length s) < CInt.max_int)%Z)
  ∧ ∃ p1 st1 p2 st2,
      d4e5f6 [] 1 st = Some (p1, st1)
      ∧ d4e5f6 [] p1 st1 = Some (p2, st2)
      ∧ string_at p2 s st2
      ∧ string_at p1 (rot13 <$> s) st2
      ∧ string_at 1 s st2
      ∧ 1 ≠ p1 ∧ p1 ≠ p2 ∧ 1 ≠ p2.
Proof.
  intros s st.
  assert (string_at 1 s st) as H1 by compute_done.
  assert (Z.of_nat (length s) < CInt.max_int)%Z as H2 by compute_done.
  exact (conj (conj H1 H2) (d4e5f6_round_trip [] [] 1 s st H1 H2)).
Defined.

(** On the long store, [d4e5f6] copies as many letters as the length
    leaves when reduced to 32 bits. *)
Lemma d4e5f6_long_store_run fresh n :
  n = Z.to_nat 4294967298 →
  ∃ st', d4e5f6 fresh 1 (long_store n) = Some (length (mem (long_store n)), st')
    ∧ string_at (length (mem (long_store n))) (chars "NN") st'.
Proof.
  intros Hn.
  pose proof (long_store_string n) as Hs.
  assert (mem (long_store n) ≠ []) as Hm by done.
  destruct (d4e5f6_run fresh 1 (replicate n (chr "A")) (long_store n) 2 Hs)
    as (_ & st' & Hrun & Hmem & _).
  { rewrite length_replicate, Hn, Z2Nat.id by lia. reflexivity. }
  { unfold CInt.max_int. lia. }
  exists st'. split; [done|].
  rewrite take_replicate, Nat.min_l in Hmem by lia.
  eapply string_at_block; [done| |exact Hmem]. compute_done.
Qed.

(** X15.  [d4e5f6] keeps the length in an [int]: whenever the length
    reduced to 32 bits is a [k] that is neither negative nor [INT_MAX],
    the block returned holds the first [k] characters rotated and then
    the terminator.  [k] is the length itself up to [INT_MAX - 1]; for a
    string of 2^32 characters or more it is less, and the result is cut
    short without notice. *)
Theorem d4e5f6_length_in_int fresh input s st k :
  string_at input s st →
  CInt.wrap (Z.of_nat (length s)) = Z.of_nat k →
  (Z.of_nat k < CInt.max_int)%Z →
  ∃ st', d4e5f6 fresh input st = Some (length (mem st), st')
    ∧ string_at (length (mem st)) (rot13 <$> take k s) st'
    ∧ k ≤ length s
    ∧ (k = length s ↔ (Z.of_nat (length s) < CInt.max_int)%Z)
    ∧ (k < length s → (4294967296 <= Z.of_nat (length s))%Z).
Proof.
  intros Hs Hk Hmax. pose proof Hs as (Hin & Hnz & _).
  pose proof (string_at_bound _ _ _ Hs) as Hb.
  assert (mem st ≠ []) as Hm by (destruct (mem st); [simpl in Hb; lia|done]).
  destruct (d4e5f6_run fresh input s st k Hs Hk Hmax)
    as (Hle & st' & Hrun & Hmem & _).
  exists st'. split; [done|]. split.
  { eapply string_at_block; [done| |done].
    apply rot13_string_nonzero. by apply Forall_take. }
  split; [done|].
  destruct (wrap_decompose (Z.of_nat (length s))) as [q Hq].
  unfold CInt.max_int in *. split; [split|]; [lia| |lia].
  intros Hlt. rewrite wrap_small in Hk
    by (unfold CInt.in_range, CInt.min_int, CInt.max_int; lia).
  lia.
Qed.

(** A short string: nothing is cut. *)
Lemma d4e5f6_length_in_int_witness :
  let s := chars "abc" in
  let st := mkState (0%Z :: s ++ [0%Z]) 0 [] [] in
  (string_at 1 s st ∧ CInt.wrap (Z.of_nat (length s)) = Z.of_nat 3
   ∧ (Z.of_nat 3 < CInt.max_int)%Z)
  ∧ ∃ st', d4e5f6 [] 1 st = Some (length (mem st), st')
    ∧ string_at (length (mem st)) (rot13 <$> take 3 s) st'
    ∧ 3 ≤ length s
    ∧ (3 = length s ↔ (Z.of_nat (length s) < CInt.max_int)%Z)
    ∧ (3 < length s → (4294967296 <= Z.of_nat (length s))%Z).
Proof.
  intros s st.
  assert (string_at 1 s st) as H1 by compute_done.
  assert (CInt.wrap (Z.of_nat (length s)) = Z.of_nat 3) as H2 by reflexivity.
  assert (Z.of_nat 3 < CInt.max_int)%Z as H3 by compute_done.
  exact (conj (conj H1 (conj H2 H3))
           (d4e5f6_length_in_int [] 1 s st 3 H1 H2 H3)).
Defined.

(** A string of [2^32 + 2] letters [A]: the block returned holds the
    two letters "NN". *)
Example d4e5f6_long_input fresh :
  let n := Z.to_nat 4294967298 in
  ∃ st', d4e5f6 fresh 1 (long_store n) = Some (length (mem (long_store n)), st')
    ∧ string_at (length (mem (long_store n))) (chars "NN") st'.
Proof.
  intros n. by apply d4e5f6_long_store_run.
Qed.

End mystery.

(** ** The arithmetic of [a1b2c3] and [g7h8i9] *)

Section mystery_arith.
Import Mystery.

Lemma wrap_mod z : CInt.wrap (z mod 4294967296) = CInt.wrap z.
Proof.
  rewrite Z.mod_eq by lia.
  replace (z - 4294967296 * (z / 4294967296))
    with (z + (- (z / 4294967296)) * 4294967296) by lia.
  apply wrap_shift.
Qed.

Lemma mod_wrap z : (CInt.wrap z mod 4294967296 = z mod 4294967296)%Z.
Proof.
  destruct (wrap_decompose z) as [k ->]. apply Z_mod_plus_full.
Qed.

(** The exclusive or of two 32-bit patterns is a 32-bit pattern. *)
Lemma lxor_32 (a b : Z) :
  (0 <= a < 4294967296 → 0 <= b < 4294967296 →
   0 <= Z.lxor a b < 4294967296)%Z.
Proof.
  intros Ha Hb.
  assert (0 <= Z.lxor a b)%Z as Hnn by (apply Z.lxor_nonneg; lia).
  split; [done|].
  destruct (decide (Z.lxor a b = 0%Z)) as [->|Hne]; [lia|].
  change 4294967296%Z with (2 ^ 32)%Z. apply Z.log2_lt_pow2; [lia|].
  pose proof (Z.log2_lxor a b (proj1 Ha) (proj1 Hb)) as Hlog.
  assert (∀ c, (0 <= c < 2 ^ 32 → Z.log2 c < 32)%Z) as Hc.
  { intros c Hc. destruct (decide (c = 0%Z)) as [->|]; [done|].
    apply Z.log2_lt_pow2; lia. }
  pose proof (Hc a Ha). pose proof (Hc b Hb). lia.
Qed.

Lemma a1b2c3_upper x : (a1b2c3 x <= 142)%Z ∧ CInt.in_range (a1b2c3 x).
Proof.
  unfold a1b2c3, CInt.add. split; [|apply wrap_in_range].
  pose proof (wrap_in_range (x * x)) as Hr. unfold CInt.mul.
  unfold CInt.in_range, CInt.min_int, CInt.max_int in Hr.
  case_bool_decide as Hbig.
  - pose proof (Z.rem_bound_pos (CInt.wrap (x * x)) 100) as Hrem.
    rewrite wrap_small
      by (unfold CInt.in_range, CInt.min_int, CInt.max_int; lia). lia.
  - rewrite wrap_small
      by (unfold CInt.in_range, CInt.min_int, CInt.max_int; lia). lia.
Qed.

(** X16.  [a1b2c3] never returns more than 142 and gives the same value
    for [x] and [-x].  When the square of [x] fits an [int] (up to
    [|x| = 46340]), the value is [x * x + 42] for a square of at most
    100 and the last two digits of the square plus 42 otherwise, hence
    between 42 and 142. *)
Theorem a1b2c3_value (x : Z) :
  (x * x <= CInt.max_int)%Z →
  a1b2c3 x = ((if decide (x * x <= 100) then x * x else (x * x) mod 100) + 42)%Z
  ∧ (42 <= a1b2c3 x <= 142)%Z
  ∧ (∀ y, a1b2c3 y <= 142)%Z
  ∧ (∀ y, a1b2c3 (- y) = a1b2c3 y).
Proof.
  intros Hsq.
  assert (a1b2c3 x
          = ((if decide (x * x <= 100) then x * x else (x * x) mod 100) + 42)%Z)
    as Hval.
  { unfold a1b2c3, CInt.add, CInt.mul.
    assert (0 <= x * x)%Z by nia.
    rewrite (wrap_small (x * x))
      by (unfold CInt.in_range, CInt.min_int, CInt.max_int in *; lia).
    case_bool_decide; case_decide; try lia.
    - rewrite Z.rem_mod_nonneg by lia.
      pose proof (Z.mod_pos_bound (x * x) 100).
      apply wrap_small. unfold CInt.in_range, CInt.min_int, CInt.max_int. lia.
    - apply wrap_small. unfold CInt.in_range, CInt.min_int, CInt.max_int. lia. }
  split; [done|]. split; [|split].
  - rewrite Hval. assert (0 <= x * x)%Z by nia.
    pose proof (Z.mod_pos_bound (x * x) 100). case_decide; lia.
  - intros y. apply a1b2c3_upper.
  - intros y. unfold a1b2c3, CInt.mul.
    by replace (- y * - y)%Z with (y * y)%Z by lia.
Qed.

(** 12 squared is 144: 44 + 42. *)
Lemma a1b2c3_value_witness :
  (12 * 12 <= CInt.max_int)%Z
  ∧ a1b2c3 12 = 86%Z
  ∧ (42 <= a1b2c3 12 <= 142)%Z
  ∧ (∀ y, a1b2c3 y <= 142)%Z
  ∧ (∀ y, a1b2c3 (- y) = a1b2c3 y).
Proof.
  assert (12 * 12 <= CInt.max_int)%Z as H by compute_done.
  exact (conj H (a1b2c3_value 12 H)).
Defined.

(** Just past the last square that fits: the product wraps and the
    value is negative. *)
Example a1b2c3_overflow : a1b2c3 46341 = (-2147478973)%Z.
Proof. reflexivity. Qed.

(** X17.  [g7h8i9] replaces [field1] by [a1b2c3] of it, sets [field2]
    to [field1 ^ 0xDEADBEEF] as an [int], from which the same exclusive
    or gives [field1] back, and writes "PROCESSED" with its terminator
    over the first ten characters of [field3], leaving the last six as
    they were.  The old [field2] and the old first ten characters play
    no part. *)
Theorem g7h8i9_fields (ms : MysteryStruct) :
  length (field3 ms) = 16%nat →
  field1 (g7h8i9 ms) = a1b2c3 (field1 ms)
  ∧ CInt.in_range (field2 (g7h8i9 ms))
  ∧ CInt.wrap (Z.lxor (field2 (g7h8i9 ms) mod 4294967296) DEADBEEF)
    = field1 (g7h8i9 ms)
  ∧ field3 (g7h8i9 ms) = chars "PROCESSED" ++ 0%Z :: drop 10 (field3 ms)
  ∧ length (field3 (g7h8i9 ms)) = 16%nat
  ∧ (∀ f2 old, length old = 10%nat →
       g7h8i9 (mkMysteryStruct (field1 ms) f2 (old ++ drop 10 (field3 ms)))
       = g7h8i9 ms).
Proof.
  intros Hlen. split; [done|]. split; [apply wrap_in_range|].
  assert (field3 (g7h8i9 ms) = chars "PROCESSED" ++ 0%Z :: drop 10 (field3 ms))
    as Hf3.
  { change (field3 (g7h8i9 ms))
      with (list_inserts 0 (chars "PROCESSED" ++ [0]) (field3 ms)).
    rewrite <- (take_drop 10 (field3 ms)) at 1.
    rewrite (list_inserts_0_r _ (take 10 (field3 ms)))
      by (rewrite length_take, Hlen; reflexivity).
    by rewrite <- app_assoc. }
  split; [|split; [done|split]].
  - simpl. rewrite mod_wrap.
    pose proof (Z.mod_pos_bound (a1b2c3 (field1 ms)) 4294967296) as Hu.
    assert (0 <= DEADBEEF < 4294967296)%Z as Hk by (unfold DEADBEEF; lia).
    pose proof (lxor_32 _ _ (Hu ltac:(lia)) Hk) as Hv.
    rewrite (Z.mod_small (Z.lxor _ _)) by done.
    rewrite Z.lxor_assoc, Z.lxor_nilpotent, Z.lxor_0_r, wrap_mod.
    apply wrap_small, a1b2c3_upper.
  - rewrite Hf3. rewrite length_app. simpl. rewrite length_drop. lia.
  - intros f2 old Hold. unfold g7h8i9. cbn [field1 field2 field3]. f_equal.
    rewrite <- (take_drop 10 (field3 ms)) at 2.
    rewrite !(list_inserts_0_r (chars "PROCESSED" ++ [0]));
      [done|rewrite length_take, Hlen; reflexivity|by rewrite Hold].
Qed.

(** The structure [main] builds for the number 7. *)
Lemma g7h8i9_fields_witness :
  let ms := mkMysteryStruct 7 0 (chars "INITIAL" ++ replicate 9 0%Z) in
  length (field3 ms) = 16%nat
  ∧ g7h8i9 ms
    = mkMysteryStruct 91 (-559038796) (chars "PROCESSED" ++ replicate 7 0%Z)
  ∧ field1 (g7h8i9 ms) = a1b2c3 (field1 ms)
  ∧ CInt.in_range (field2 (g7h8i9 ms))
  ∧ CInt.wrap (Z.lxor (field2 (g7h8i9 ms) mod 4294967296) DEADBEEF)
    = field1 (g7h8i9 ms)
  ∧ field3 (g7h8i9 ms) = chars "PROCESSED" ++ 0%Z :: drop 10 (field3 ms)
  ∧ length (field3 (g7h8i9 ms)) = 16%nat
  ∧ (∀ f2 old, length old = 10%nat →
       g7h8i9 (mkMysteryStruct (field1 ms) f2 (old ++ drop 10 (field3 ms)))
       = g7h8i9 ms).
Proof.
  intros ms.
  assert (length (field3 ms) = 16%nat) as H by reflexivity.
  exact (conj H (conj eq_refl (g7h8i9_fields ms H))).
Defined.

End mystery_arith.

(** * The counter in the store *)

Section counter_in_store.
Import SharedLib Mapped.
Local Open Scope nat_scope.

Lemma int_of_bytes_int_bytes v : int_of_bytes (int_bytes v) = Some (CInt.wrap v).
Proof.
  unfold int_of_bytes, int_bytes. f_equal. rewrite !Z.mod_mod by lia.
  rewrite <- (wrap_mod v). f_equal. Z.div_mod_to_equations. lia.
Qed.

Lemma length_int_bytes v : length (int_bytes v) = 4.
Proof. reflexivity. Qed.

(** An [int] read is the value of an [int]. *)
Lemma read_int_in_range p st c : read_int p st = Some c → CInt.in_range c.
Proof.
  unfold read_int, int_of_bytes. case_decide; [done|].
  destruct (take 4 (drop p (mem st))) as [|b0 [|b1 [|b2 [|b3 [|b4 l]]]]];
    try done.
  intros [= <-]. apply wrap_in_range.
Qed.

(** Where an [int] can be read there are four cells. *)
Lemma read_int_valid p st c :
  read_int p st = Some c → p ≠ 0 ∧ p + 4 ≤ length (mem st).
Proof.
  unfold read_int, int_of_bytes. case_decide; [done|]. intros Hc. split; [done|].
  destruct (take 4 (drop p (mem st))) as [|b0 [|b1 [|b2 [|b3 [|b4 l]]]]] eqn:Ht;
    try done.
  apply (f_equal length) in Ht. rewrite length_take, length_drop in Ht.
  change (length [b0; b1; b2; b3]) with 4 in Ht. lia.
Qed.

(** What is read depends on the four cells only. *)
Lemma read_int_ext p st st' :
  (∀ a, p ≤ a < p + 4 → mem st' !! a = mem st !! a) →
  read_int p st' = read_int p st.
Proof.
  intros H. unfold read_int. case_decide; [done|].
  rewrite (take_drop_ext (mem st) (mem st')); [done|].
  intros i Hi. apply H. lia.
Qed.

Lemma write_int_Some p v st :
  p ≠ 0 → p + 4 ≤ length (mem st) →
  write_int p v st = Some (patch p (int_bytes v) st).
Proof. intros. unfold write_int. by rewrite decide_True. Qed.

(** What has been written is read back, reduced to an [int]. *)
Lemma read_write_int p v st st' :
  write_int p v st = Some st' → read_int p st' = Some (CInt.wrap v).
Proof.
  unfold write_int. case_decide as Hok; [|done]. intros [= <-].
  unfold read_int. rewrite decide_False by tauto.
  change (int_of_bytes
            (take (length (int_bytes v))
               (drop p (list_inserts p (int_bytes v) (mem st))))
          = Some (CInt.wrap v)).
  rewrite take_drop_inserts by (rewrite length_int_bytes; lia).
  apply int_of_bytes_int_bytes.
Qed.

(** The increment on the bytes does what [lib_increment_counter] does on
    the field, and changes no other cell. *)
Lemma increment_at_run p c st :
  read_int p st = Some c →
  ∃ st', lib_increment_counter_at p st = Some st'
    ∧ read_int p st' = Some (CInt.wrap (c + 1))
    ∧ length (mem st') = length (mem st)
    ∧ (∀ a, a < p ∨ p + 4 ≤ a → mem st' !! a = mem st !! a)
    ∧ lib_global_counter st' = lib_global_counter st
    ∧ stores st' = stores st ∧ trace st' = trace st.
Proof.
  intros Hc. destruct (read_int_valid _ _ _ Hc) as [Hp Hfit].
  unfold lib_increment_counter_at. rewrite Hc. simpl.
  rewrite write_int_Some by done. eexists. split; [done|].
  split.
  { erewrite read_write_int; [|by apply write_int_Some].
    unfold CInt.add. by rewrite wrap_idem. }
  cbn [patch mem set_mem lib_global_counter stores trace].
  split; [by rewrite length_inserts|]. split; [|done].
  intros a [Ha|Ha].
  - by apply list_lookup_inserts_lt.
  - apply list_lookup_inserts_ge. rewrite length_int_bytes. lia.
Qed.

Lemma increments_at_run p n : ∀ c st,
  read_int p st = Some c →
  ∃ st', increments_at p n st = Some st'
    ∧ read_int p st' = Some (CInt.wrap (c + Z.of_nat n))
    ∧ (∀ a, a < p ∨ p + 4 ≤ a → mem st' !! a = mem st !! a).
Proof.
  induction n as [|n IH]; intros c st Hc.
  - exists st. split; [done|]. split; [|done].
    rewrite Z.add_0_r, wrap_small; [done|]. by eapply read_int_in_range.
  - destruct (IH c st Hc) as (st1 & Hrun & Hc1 & Hmem1).
    destruct (increment_at_run p _ st1 Hc1) as (st2 & Hinc & Hc2 & _ & Hmem2 & _).
    exists st2. split.
    { unfold increments_at in *. simpl. by rewrite Hrun. }
    split.
    { rewrite Hc2, wrap_add_l. do 2 f_equal. lia. }
    intros a Ha. by rewrite Hmem2, Hmem1.
Qed.

(** *** Patches off the cells of a call *)

Lemma insert_inserts_off (m bs : list Z) p a c :
  a < p ∨ p + length bs ≤ a →
  <[a:=c]> (list_inserts p bs m) = list_inserts p bs (<[a:=c]> m).
Proof.
  intros [Ha|Ha]; [by apply list_insert_inserts_lt|].
  apply list_eq. intros i.
  destruct (decide (i < length m)) as [Hi|Hi].
  2: { trans (@None Z); [|symmetry]; apply lookup_ge_None;
         rewrite ?length_insert, ?length_inserts, ?length_insert; lia. }
  destruct (decide (i = a)) as [->|Hne].
  - rewrite list_lookup_insert_eq by (by rewrite length_inserts).
    rewrite list_lookup_inserts_ge by done. by rewrite list_lookup_insert_eq.
  - rewrite list_lookup_insert_ne by done.
    destruct (decide (i < p)).
    { rewrite !list_lookup_inserts_lt by done. by rewrite list_lookup_insert_ne. }
    destruct (decide (p + length bs ≤ i)).
    { rewrite !list_lookup_inserts_ge by done. by rewrite list_lookup_insert_ne. }
    by rewrite !list_lookup_inserts by (rewrite ?length_insert; lia).
Qed.

Lemma lookup_patch p bs st a :
  a < p ∨ p + length bs ≤ a → mem (patch p bs st) !! a = mem st !! a.
Proof.
  intros [Ha|Ha]; simpl.
  - by apply list_lookup_inserts_lt.
  - by apply list_lookup_inserts_ge.
Qed.

Lemma load_patch p bs st a :
  a < p ∨ p + length bs ≤ a → load a (patch p bs st) = load a st.
Proof. intros Ha. unfold load. by rewrite lookup_patch. Qed.

Lemma store_patch p bs st a c st' :
  store a c st = Some st' → a < p ∨ p + length bs ≤ a →
  store a c (patch p bs st) = Some (patch p bs st').
Proof.
  unfold store. intros Hst Ha. cbn [patch mem set_mem].
  rewrite length_inserts. case_decide; [|done]. injection Hst as <-.
  unfold patch, log_store, set_mem. cbn [mem lib_global_counter stores trace].
  by rewrite insert_inserts_off.
Qed.

Lemma process_body_patch p bs input output len i st st' :
  process_body input output len i st = Some st' →
  input + (len - 1 - i) < p ∨ p + length bs ≤ input + (len - 1 - i) →
  output + i < p ∨ p + length bs ≤ output + i →
  process_body input output len i (patch p bs st) = Some (patch p bs st').
Proof.
  unfold process_body. intros Hrun Hin Hout. rewrite load_patch by done.
  destruct (load (input + (len - 1 - i)) st) as [c|]; [|done].
  simpl in *. by apply store_patch.
Qed.

Lemma process_loop_patch p bs input output len n : ∀ start st st',
  for_range start n (process_body input output len) st = Some st' →
  start + n ≤ len →
  p + length bs ≤ input ∨ input + len < p →
  p + length bs ≤ output ∨ output + len < p →
  for_range start n (process_body input output len) (patch p bs st)
  = Some (patch p bs st').
Proof.
  induction n as [|n IH]; intros start st st' Hrun Hle Hin Hout; simpl in *.
  - by injection Hrun as <-.
  - destruct (process_body input output len start st) as [st1|] eqn:Hb;
      [|done].
    rewrite (process_body_patch p bs _ _ _ _ _ _ Hb) by lia.
    simpl in *. apply IH; [done|lia|done..].
Qed.

Lemma strlen_patch p bs input len st :
  strlen input st = Some len →
  p + length bs ≤ input ∨ input + len < p →
  strlen input (patch p bs st) = Some len.
Proof.
  intros Hlen Hin. destruct (strlen_Some _ _ _ Hlen) as [Hs Hl].
  rewrite <- Hl. apply strlen_string_at.
  destruct Hs as (Hp & Hnz & Htake). split; [done|]. split; [done|].
  rewrite <- Htake. apply take_drop_ext. intros i Hi.
  apply (lookup_patch p bs st). lia.
Qed.

(** A call run on a store patched off the cells it reads and the cells
    it stores to does the same, and leaves the patch in place. *)
Lemma process_data_patch p bs input output output_size st r st' :
  lib_process_data input output output_size st = Some (r, st') →
  (∀ len, strlen input st = Some len →
     (p + length bs ≤ input ∨ input + len < p)
     ∧ (len < output_size → p + length bs ≤ output ∨ output + len < p)) →
  lib_process_data input output output_size (patch p bs st)
  = Some (r, patch p bs st').
Proof.
  unfold lib_process_data. intros Hrun Hoff.
  case_bool_decide; [by injection Hrun as <- <-|].
  destruct (strlen input st) as [len|] eqn:Hlen; [|done].
  destruct (Hoff len eq_refl) as [Hin Hout].
  rewrite (strlen_patch p bs _ _ _ Hlen Hin). simpl in *.
  case_bool_decide; [by injection Hrun as <- <-|].
  destruct (for_range 0 len (process_body input output len) st)
    as [st1|] eqn:Hloop; [|done].
  rewrite (process_loop_patch p bs _ _ _ _ _ _ _ Hloop) by (done || lia).
  simpl in *.
  destruct (store (output + len) 0%Z st1) as [st2|] eqn:Hst; [|done].
  rewrite (store_patch p bs _ _ _ _ Hst) by lia. simpl in *.
  by injection Hrun as <- <-.
Qed.


(** *** What a call leaves alone *)

(** The stores of a call: none when it is refused, the cells [0 .. len]
    of the output when it is not. *)
Lemma process_data_stored input output output_size st r st' :
  lib_process_data input output output_size st = Some (r, st') →
  (st' = st ∧ stored_by st st' = [] ∧ (r = -1 ∨ r = -2)%Z
   ∧ (input = 0 ∨ output = 0 ∨ output_size = 0
      ∨ ∃ len, strlen input st = Some len ∧ output_size ≤ len))
  ∨ (∃ len, strlen input st = Some len ∧ len < output_size
       ∧ input ≠ 0 ∧ output ≠ 0
       ∧ r = CInt.wrap (Z.of_nat len)
       ∧ stored_by st st' = seq output (S len)
       ∧ same_but output (output + S len) st st').
Proof.
  intros Hrun.
  assert (stored_by st st = []) as Hnone.
  { unfold stored_by. by rewrite drop_all. }
  destruct (process_data_inv _ _ _ _ _ _ Hrun)
    as [(Hnull & -> & ->)|(Hin & Hout & Hsz & len & Hlen
                          & [(Hle & -> & ->)|(Hlt & -> & Hst & Hsb)])].
  - left. split; [done|]. split; [done|]. split; [by left|tauto].
  - left. split; [done|]. split; [done|]. split; [by right|].
    do 3 right. by exists len.
  - right. exists len. do 5 (split; [done|]). split; [|done].
    unfold stored_by. by rewrite Hst, drop_app_length.
Qed.

(** C10, as amended.  A call of [lib_process_data] stores to the cells
    [0 .. len] of the output when it passes both checks and to no cell
    when it is refused, and it changes no other cell.  So the counter,
    an [int] object in four cells at [counter_ptr], has the same value
    after the call whenever none of these stores lands on it; and when
    its four cells are off the input string and off the cells stored
    to, the call does not read it either: run on a store with any other
    value written there, it returns the same and leaves the same store
    but for that value.  The input string is the same after the call
    whenever the cells [0 .. len] of the output do not overlap it, and
    a call refused by one of the two checks changes nothing at all. *)
Theorem process_data_frame input output output_size st r st' :
  lib_process_data input output output_size st = Some (r, st') →
  (stored_by st st' = []
   ∨ ∃ len, strlen input st = Some len ∧ len < output_size
       ∧ stored_by st st' = seq output (S len))
  ∧ length (mem st') = length (mem st)
  ∧ trace st' = trace st
  ∧ (∀ a, a ∉ stored_by st st' → mem st' !! a = mem st !! a)
  ∧ (∀ counter_ptr,
       (∀ a, a ∈ stored_by st st' → a < counter_ptr ∨ counter_ptr + 4 ≤ a) →
       read_int counter_ptr st' = read_int counter_ptr st)
  ∧ (∀ counter_ptr v stv,
       write_int counter_ptr v st = Some stv →
       (∀ len, strlen input st = Some len →
          off counter_ptr input len
          ∧ (len < output_size → off counter_ptr output len)) →
       ∃ stv', lib_process_data input output output_size stv = Some (r, stv')
         ∧ write_int counter_ptr v st' = Some stv')
  ∧ (∀ s, string_at input s st → separate input output (length s) →
          string_at input s st'
          ∧ ∀ i, i ≤ length s → mem st' !! (input + i) = mem st !! (input + i))
  ∧ (input = 0 ∨ output = 0 ∨ output_size = 0
     ∨ (∃ len, strlen input st = Some len ∧ output_size ≤ len) →
     st' = st).
Proof.
  intros Hrun.
  assert (length (mem st') = length (mem st)
          ∧ trace st' = trace st
          ∧ ∀ a, a ∉ stored_by st st' → mem st' !! a = mem st !! a)
    as (Hlength & Htrace & Hkept).
  { destruct (process_data_stored _ _ _ _ _ _ Hrun)
      as [(-> & _)|(len & _ & _ & _ & _ & _ & Hby & Hl & _ & Ht & Hmem)];
      [done|].
    repeat split; [done..|]. intros a Ha. apply Hmem.
    rewrite Hby, elem_of_seq in Ha. lia. }
  split; [|split; [done|split; [done|split; [done|split; [|split; [|split]]]]]].
  - destruct (process_data_stored _ _ _ _ _ _ Hrun)
      as [(_ & Hby & _)|(len & Hlen & Hlt & _ & _ & _ & Hby & _)];
      [by left|].
    right. by exists len.
  - intros counter_ptr Hoff. apply read_int_ext. intros a Ha. apply Hkept.
    intros Hin. apply Hoff in Hin. lia.
  - intros counter_ptr v stv Hw Hoff. unfold write_int in Hw.
    case_decide as Hok; [|done]. injection Hw as <-.
    exists (patch counter_ptr (int_bytes v) st'). split.
    + apply process_data_patch; [done|]. intros len Hlen.
      destruct (Hoff len Hlen) as [Hi Ho]. unfold off in *.
      by rewrite length_int_bytes.
    + apply write_int_Some; [tauto|lia].
  - intros s Hs Hsep.
    destruct (process_data_stored _ _ _ _ _ _ Hrun)
      as [(-> & _)|(len & Hlen & _ & _ & _ & _ & _ & Hsb)]; [done|].
    rewrite (strlen_string_at _ _ _ Hs) in Hlen. injection Hlen as <-.
    split.
    + eapply string_at_same_but; [done..|]. destruct Hsep; lia.
    + intros i Hi. destruct Hsb as (_ & _ & _ & Hmem). apply Hmem.
      destruct Hsep; lia.
  - intros Hrej.
    destruct (process_data_stored _ _ _ _ _ _ Hrun)
      as [(-> & _)|(len & Hlen & Hlt & Hin & Hout & _)]; [done|].
    destruct Hrej as [?|[?|[?|(len' & Hlen' & ?)]]]; [done|done|lia|].
    rewrite Hlen in Hlen'. injection Hlen' as <-. lia.
Qed.

(** A call of the Host's kind, "abc" into a buffer next to it, with the
    counter, at 5, in the four cells after the buffer. *)
Lemma process_data_frame_witness :
  let st := mkState (0%Z :: chars "abc" ++ 0%Z :: replicate 4 7%Z ++ int_bytes 5)
                    5 [] [] in
  let st' := mkState (0%Z :: chars "abc" ++ 0%Z :: chars "CBA" ++ 0%Z :: int_bytes 5)
                     5 [5; 6; 7; 8] [] in
  lib_process_data 1 5 4 st = Some (3%Z, st')
  ∧ (stored_by st st' = []
   ∨ ∃ len, strlen 1 st = Some len ∧ len < 4
       ∧ stored_by st st' = seq 5 (S len))
  ∧ length (mem st') = length (mem st)
  ∧ trace st' = trace st
  ∧ (∀ a, a ∉ stored_by st st' → mem st' !! a = mem st !! a)
  ∧ (∀ counter_ptr,
       (∀ a, a ∈ stored_by st st' → a < counter_ptr ∨ counter_ptr + 4 ≤ a) →
       read_int counter_ptr st' = read_int counter_ptr st)
  ∧ (∀ counter_ptr v stv,
       write_int counter_ptr v st = Some stv →
       (∀ len, strlen 1 st = Some len →
          off counter_ptr 1 len
          ∧ (len < 4 → off counter_ptr 5 len)) →
       ∃ stv', lib_process_data 1 5 4 stv = Some (3%Z, stv')
         ∧ write_int counter_ptr v st' = Some stv')
  ∧ (∀ s, string_at 1 s st → separate 1 5 (length s) →
          string_at 1 s st'
          ∧ ∀ i, i ≤ length s → mem st' !! (1 + i) = mem st !! (1 + i))
  ∧ (1 = 0 ∨ 5 = 0 ∨ 4 = 0
     ∨ (∃ len, strlen 1 st = Some len ∧ 4 ≤ len) →
     st' = st).
Proof.
  intros st st'.
  assert (lib_process_data 1 5 4 st = Some (3%Z, st')) as H by reflexivity.
  exact (conj H (process_data_frame 1 5 4 st 3%Z st' H)).
Defined.

(** With the input pointer at the counter the call reads the counter's
    bytes as a string: a counter of [0x434241] makes it store "CBA" and
    return 3, a counter of 0 makes it store the empty string and return
    0. *)
Example process_data_reads_counter :
  let st := mkState (0%Z :: int_bytes 4407873 ++ replicate 4 7%Z) 0 [] [] in
  ∃ stv st' stv',
    read_int 1 st = Some 4407873%Z
    ∧ lib_process_data 1 5 4 st = Some (3%Z, st')
    ∧ take 4 (drop 5 (mem st')) = chars "CBA" ++ [0%Z]
    ∧ write_int 1 0 st = Some stv
    ∧ lib_process_data 1 5 4 stv = Some (0%Z, stv')
    ∧ take 4 (drop 5 (mem stv')) = [0%Z; 7%Z; 7%Z; 7%Z].
Proof. intros st. do 3 eexists. repeat split; vm_compute; reflexivity. Qed.

(** *** The counter and what changes it *)

(** C5, as amended.  The counter is an [int] that loading the module
    sets to zero.  From a module just loaded, [n] calls of
    [lib_increment_counter] leave the counter at [n] reduced to 32
    bits, which is [n] itself up to [INT_MAX]; the function always
    returns, and changes nothing but the counter.  This holds of the
    counter as the module's code names it, and of the counter as an
    object in the store, four cells at [counter_ptr] that the loading
    has set to zero: there the increment goes through wherever the
    object can be read, does what [lib_increment_counter] does and
    changes no other cell.  [lib_initialize], [lib_execute_callback]
    with a callback that leaves the store alone, the constructor and
    the destructor change no cell, and so not the counter.
    [lib_process_data] stores to the cells [0 .. len] of its output
    only, and leaves the counter as it is whenever none of its stores
    lands on the counter's four cells. *)
Theorem increment_counter_counts (n : nat) (address : string)
    (counter_ptr : nat) (st stp : state) :
  write_int counter_ptr lib_global_counter_init st = Some stp →
  lib_global_counter_init = 0%Z
  ∧ lib_global_counter (load_module address st) = 0%Z
  ∧ lib_global_counter
      (Nat.iter n lib_increment_counter (load_module address st))
    = CInt.wrap (Z.of_nat n)
  ∧ (if decide (Z.of_nat n <= CInt.max_int)%Z
     then lib_global_counter
            (Nat.iter n lib_increment_counter (load_module address st))
          = Z.of_nat n
     else True)
  ∧ CInt.in_range
      (lib_global_counter
         (Nat.iter n lib_increment_counter (load_module address st)))
  ∧ lib_global_counter (lib_increment_counter st)
    = CInt.wrap (lib_global_counter st + 1)
  ∧ mem (lib_increment_counter st) = mem st
  ∧ trace (lib_increment_counter st) = trace st
  ∧ read_int counter_ptr stp = Some 0%Z
  ∧ (∃ stn, increments_at counter_ptr n stp = Some stn
       ∧ read_int counter_ptr stn = Some (CInt.wrap (Z.of_nat n))
       ∧ (if decide (Z.of_nat n <= CInt.max_int)%Z
          then read_int counter_ptr stn = Some (Z.of_nat n) else True)
       ∧ ∀ a, a < counter_ptr ∨ counter_ptr + 4 ≤ a → mem stn !! a = mem st !! a)
  ∧ (∀ c, read_int counter_ptr st = Some c →
       ∃ st', lib_increment_counter_at counter_ptr st = Some st'
         ∧ read_int counter_ptr st' = Some (CInt.wrap (c + 1))
         ∧ (c = lib_global_counter st →
            read_int counter_ptr st'
            = Some (lib_global_counter (lib_increment_counter st)))
         ∧ (∀ a, a < counter_ptr ∨ counter_ptr + 4 ≤ a → mem st' !! a = mem st !! a)
         ∧ stores st' = stores st ∧ trace st' = trace st)
  ∧ (mem (lib_initialize st).2 = mem st
     ∧ lib_global_counter (lib_initialize st).2 = lib_global_counter st)
  ∧ (∀ f v, mem (lib_execute_callback (Some (pure_callback f)) v st).2 = mem st
            ∧ lib_global_counter
                (lib_execute_callback (Some (pure_callback f)) v st).2
              = lib_global_counter st)
  ∧ (∀ v, mem (lib_execute_callback (Some Host.my_callback) v st).2 = mem st
          ∧ lib_global_counter
              (lib_execute_callback (Some Host.my_callback) v st).2
            = lib_global_counter st)
  ∧ (∀ v, lib_execute_callback None v st = ((-1)%Z, st))
  ∧ (mem (lib_constructor address st) = mem st
     ∧ lib_global_counter (lib_constructor address st) = lib_global_counter st)
  ∧ (mem (lib_destructor st) = mem st
     ∧ lib_global_counter (lib_destructor st) = lib_global_counter st)
  ∧ (∀ input output output_size r st',
       lib_process_data input output output_size st = Some (r, st') →
       (∀ a, a ∈ stored_by st st' →
          ∃ len, strlen input st = Some len ∧ output ≤ a ≤ output + len)
       ∧ ((∀ a, a ∈ stored_by st st' → a < counter_ptr ∨ counter_ptr + 4 ≤ a) →
          read_int counter_ptr st' = read_int counter_ptr st)).
Proof.
  intros Hinit.
  assert (lib_global_counter
            (Nat.iter n lib_increment_counter (load_module address st))
          = CInt.wrap (Z.of_nat n)) as Hn.
  { by rewrite increment_counter_iter. }
  assert (CInt.in_range (Z.of_nat n) ↔ (Z.of_nat n <= CInt.max_int)%Z) as Hfit.
  { unfold CInt.in_range, CInt.min_int. lia. }
  pose proof (read_write_int _ _ _ _ Hinit) as Hzero.
  change (CInt.wrap lib_global_counter_init) with 0%Z in Hzero.
  split; [done|]. split; [done|]. split; [done|]. split.
  { case_decide; [|done]. rewrite Hn. apply wrap_small. by apply Hfit. }
  split; [rewrite Hn; apply wrap_in_range|].
  do 3 (split; [done|]). split; [done|]. split.
  { destruct (increments_at_run counter_ptr n _ _ Hzero)
      as (stn & Hrun & Hc & Hmem).
    rewrite Z.add_0_l in Hc. exists stn. split; [done|]. split; [done|].
    split.
    { case_decide; [|done]. rewrite Hc. f_equal. apply wrap_small.
      by apply Hfit. }
    intros a Ha. rewrite Hmem by done. unfold write_int in Hinit.
    case_decide; [|done]. injection Hinit as <-.
    apply lookup_patch. by rewrite length_int_bytes. }
  split.
  { intros c Hc.
    destruct (increment_at_run _ _ _ Hc)
      as (st' & Hrun & Hc' & _ & Hmem & _ & Hst & Htr).
    exists st'. split; [done|]. split; [done|]. split; [by intros ->|].
    done. }
  do 6 (split; [done|]).
  intros input output output_size r st' Hrun.
  destruct (process_data_stored _ _ _ _ _ _ Hrun)
    as [(-> & Hby & _)|(len & Hlen & _ & _ & _ & _ & Hby & _ & _ & _ & Hmem)].
  { split; [|done]. intros a Ha. rewrite Hby in Ha. by apply elem_of_nil in Ha. }
  split.
  - intros a Ha. rewrite Hby, elem_of_seq in Ha. exists len. split; [done|lia].
  - intros Hoff. apply read_int_ext. intros a Ha. apply Hmem.
    destruct (decide (a < output ∨ output + S len ≤ a)) as [|Hin]; [done|].
    assert (a ∈ stored_by st st') as Hel by (rewrite Hby, elem_of_seq; lia).
    apply Hoff in Hel. lia.
Qed.

(** Three increments of a counter placed in the cells 1 to 4. *)
Lemma increment_counter_counts_witness :
  let st := mkState [0; 7; 7; 7; 7; 0]%Z 9 [] [] in
  let stp := mkState [0; 0; 0; 0; 0; 0]%Z 9 [] [] in
  write_int 1 lib_global_counter_init st = Some stp
  ∧ lib_global_counter_init = 0%Z
  ∧ lib_global_counter (load_module "0x7f3a5c000000" st) = 0%Z
  ∧ lib_global_counter
      (Nat.iter 3 lib_increment_counter (load_module "0x7f3a5c000000" st))
    = CInt.wrap (Z.of_nat 3)
  ∧ (if decide (Z.of_nat 3 <= CInt.max_int)%Z
     then lib_global_counter
            (Nat.iter 3 lib_increment_counter (load_module "0x7f3a5c000000" st))
          = Z.of_nat 3
     else True)
  ∧ CInt.in_range
      (lib_global_counter
         (Nat.iter 3 lib_increment_counter (load_module "0x7f3a5c000000" st)))
  ∧ lib_global_counter (lib_increment_counter st)
    = CInt.wrap (lib_global_counter st + 1)
  ∧ mem (lib_increment_counter st) = mem st
  ∧ trace (lib_increment_counter st) = trace st
  ∧ read_int 1 stp = Some 0%Z
  ∧ (∃ stn, increments_at 1 3 stp = Some stn
       ∧ read_int 1 stn = Some (CInt.wrap (Z.of_nat 3))
       ∧ (if decide (Z.of_nat 3 <= CInt.max_int)%Z
          then read_int 1 stn = Some (Z.of_nat 3) else True)
       ∧ ∀ a, a < 1 ∨ 1 + 4 ≤ a → mem stn !! a = mem st !! a)
  ∧ (∀ c, read_int 1 st = Some c →
       ∃ st', lib_increment_counter_at 1 st = Some st'
         ∧ read_int 1 st' = Some (CInt.wrap (c + 1))
         ∧ (c = lib_global_counter st →
            read_int 1 st'
            = Some (lib_global_counter (lib_increment_counter st)))
         ∧ (∀ a, a < 1 ∨ 1 + 4 ≤ a → mem st' !! a = mem st !! a)
         ∧ stores st' = stores st ∧ trace st' = trace st)
  ∧ (mem (lib_initialize st).2 = mem st
     ∧ lib_global_counter (lib_initialize st).2 = lib_global_counter st)
  ∧ (∀ f v, mem (lib_execute_callback (Some (pure_callback f)) v st).2 = mem st
            ∧ lib_global_counter
                (lib_execute_callback (Some (pure_callback f)) v st).2
              = lib_global_counter st)
  ∧ (∀ v, mem (lib_execute_callback (Some Host.my_callback) v st).2 = mem st
          ∧ lib_global_counter
              (lib_execute_callback (Some Host.my_callback) v st).2
            = lib_global_counter st)
  ∧ (∀ v, lib_execute_callback None v st = ((-1)%Z, st))
  ∧ (mem (lib_constructor "0x7f3a5c000000" st) = mem st
     ∧ lib_global_counter (lib_constructor "0x7f3a5c000000" st) = lib_global_counter st)
  ∧ (mem (lib_destructor st) = mem st
     ∧ lib_global_counter (lib_destructor st) = lib_global_counter st)
  ∧ (∀ input output output_size r st',
       lib_process_data input output output_size st = Some (r, st') →
       (∀ a, a ∈ stored_by st st' →
          ∃ len, strlen input st = Some len ∧ output ≤ a ≤ output + len)
       ∧ ((∀ a, a ∈ stored_by st st' → a < 1 ∨ 1 + 4 ≤ a) →
          read_int 1 st' = read_int 1 st)).
Proof.
  intros st stp.
  assert (write_int 1 lib_global_counter_init st = Some stp) as H
    by reflexivity.
  exact (conj H (increment_counter_counts 3 "0x7f3a5c000000" 1 st stp H)).
Defined.

(** C5 as stated fails.  The counter lies in the cells 1 to 4 and is
    raised from 0 to 1 by [lib_increment_counter]; the empty string lies
    at 5.  A call of [lib_process_data] with the counter's address as
    its output passes both checks and stores the terminator over the
    counter's first byte: the counter is back at 0, changed by an
    operation that is not [lib_increment_counter].  From [0x01010101],
    where no byte is zero and the order of the bytes plays no part, the
    same call leaves [0x01010100]. *)
Lemma process_data_overwrites_counter :
  let st := mkState [0; 7; 7; 7; 7; 0]%Z 0 [] [] in
  ∃ st0 st1 st2 st3 st4,
    write_int 1 lib_global_counter_init st = Some st0
    ∧ lib_increment_counter_at 1 st0 = Some st1
    ∧ read_int 1 st1 = Some 1%Z
    ∧ lib_process_data 5 1 1 st1 = Some (0%Z, st2)
    ∧ read_int 1 st2 = Some 0%Z
    ∧ write_int 1 16843009 st = Some st3
    ∧ read_int 1 st3 = Some 16843009%Z
    ∧ lib_process_data 5 1 1 st3 = Some (0%Z, st4)
    ∧ read_int 1 st4 = Some 16843008%Z.
Proof. intros st. do 5 eexists. repeat split; vm_compute; reflexivity. Qed.

(** *** The increment and a call *)

(** X8.  When the counter's four cells are off the input string and off
    the cells [0 .. len] of the output, [lib_increment_counter] and
    [lib_process_data] do not interfere: incrementing the counter
    before the call or after it gives the same value returned and the
    same final state, with the counter one higher. *)
Theorem process_data_increment_commute input output output_size counter_ptr
    c st r st' :
  lib_process_data input output output_size st = Some (r, st') →
  read_int counter_ptr st = Some c →
  (∀ len, strlen input st = Some len →
     off counter_ptr input len
     ∧ (len < output_size → off counter_ptr output len)) →
  ∃ st1 st2,
    lib_increment_counter_at counter_ptr st = Some st1
    ∧ lib_process_data input output output_size st1 = Some (r, st2)
    ∧ lib_increment_counter_at counter_ptr st' = Some st2
    ∧ read_int counter_ptr st2 = Some (CInt.wrap (c + 1)).
Proof.
  intros Hrun Hc Hoff.
  destruct (read_int_valid _ _ _ Hc) as [Hp Hfit].
  assert (length (mem st') = length (mem st)
          ∧ ∀ a, counter_ptr ≤ a < counter_ptr + 4 →
                 mem st' !! a = mem st !! a) as [Hlength Hkept].
  { destruct (process_data_stored _ _ _ _ _ _ Hrun)
      as [(-> & _)|(len & Hlen & Hlt & _ & _ & _ & _ & Hl & _ & _ & Hmem)];
      [done|].
    split; [done|]. intros a Ha. apply Hmem.
    destruct (Hoff len Hlen) as [_ Ho]. specialize (Ho Hlt).
    unfold off in Ho. lia. }
  assert (read_int counter_ptr st' = Some c) as Hc'.
  { by rewrite (read_int_ext counter_ptr st st'). }
  exists (patch counter_ptr (int_bytes (CInt.add c 1)) st),
         (patch counter_ptr (int_bytes (CInt.add c 1)) st').
  split; [|split; [|split]].
  - unfold lib_increment_counter_at. rewrite Hc. simpl.
    by apply write_int_Some.
  - apply process_data_patch; [done|]. intros len Hlen.
    destruct (Hoff len Hlen) as [Hi Ho]. unfold off in *.
    by rewrite length_int_bytes.
  - unfold lib_increment_counter_at. rewrite Hc'. simpl.
    apply write_int_Some; [done|lia].
  - erewrite read_write_int; [|apply write_int_Some; [done|lia]].
    unfold CInt.add. by rewrite wrap_idem.
Qed.

(** "abc" into a buffer next to it, the counter, at 41, in the four
    cells after the buffer. *)
Lemma process_data_increment_commute_witness :
  let st := mkState (0%Z :: chars "abc" ++ 0%Z :: replicate 4 7%Z ++ int_bytes 41)
                    0 [] [] in
  let st' := mkState (0%Z :: chars "abc" ++ 0%Z :: chars "CBA" ++ 0%Z :: int_bytes 41)
                     0 [5; 6; 7; 8] [] in
  lib_process_data 1 5 4 st = Some (3%Z, st')
  ∧ read_int 9 st = Some 41%Z
  ∧ ∃ st1 st2,
    lib_increment_counter_at 9 st = Some st1
    ∧ lib_process_data 1 5 4 st1 = Some (3%Z, st2)
    ∧ lib_increment_counter_at 9 st' = Some st2
    ∧ read_int 9 st2 = Some (CInt.wrap (41 + 1)).
Proof.
  intros st st'.
  assert (lib_process_data 1 5 4 st = Some (3%Z, st')) as H by reflexivity.
  assert (read_int 9 st = Some 41%Z) as Hc by reflexivity.
  split; [done|]. split; [done|].
  apply (process_data_increment_commute 1 5 4 9 41 st 3%Z st' H Hc).
  intros len Hlen. vm_compute in Hlen. injection Hlen as <-.
  split; [|intros _]; unfold off; lia.
Defined.

(** Without that the order counts.  The counter, at 1, lies in the cells
    1 to 4 and the empty string at 5: the increment and then a call with
    the counter's address as output leave the counter at 0, the call and
    then the increment leave it at 1. *)
Example process_data_increment_order :
  let st := mkState [0; 1; 0; 0; 0; 0]%Z 0 [] [] in
  ∃ st1 st2 st3 st4,
    read_int 1 st = Some 1%Z
    ∧ lib_increment_counter_at 1 st = Some st1
    ∧ lib_process_data 5 1 1 st1 = Some (0%Z, st2)
    ∧ read_int 1 st2 = Some 0%Z
    ∧ lib_process_data 5 1 1 st = Some (0%Z, st3)
    ∧ lib_increment_counter_at 1 st3 = Some st4
    ∧ read_int 1 st4 = Some 1%Z.
Proof. intros st. do 4 eexists. repeat split; vm_compute; reflexivity. Qed.

End counter_in_store.
